(** * LocalOpts: a shallow embedding of the peephole pass of [LocalOpts.cpp]

    The pass works on LLVM IR.  The IR is kept the way the pass sees it:
    instructions are heap objects addressed by a handle, a basic block is the
    ordered list of its instructions, and the operands of an instruction are
    values (integer constants, other constants, arguments, results of
    instructions).  Every function of the source file is translated below
    under its own name; the members of LLVM's [APInt], [Value] and
    [Instruction] that the source calls are modelled just before their first
    use.  Null dereferences, out-of-range shifts of a C++ [int] and the
    erasure of an already erased instruction are undefined behaviour in C++:
    the rules answer [None] and the block rewriter answers [Undefined]
    there.

    The file has three parts: the definitions; the properties of the store of
    instructions, of the scan (its invariant, its termination) and of each
    rule; and the statements of the specification, C1 to C10, settled on
    them. *)

From Stdlib Require Import ZArith List Bool Arith Lia.
Import ListNotations.

(** ** Arbitrary-precision integers, as the pass uses them *)

Module APInt.
Local Open Scope Z_scope.

(** An [APInt] is a bit width and the unsigned value of its bits. *)
Record t : Type := mk { BitWidth : Z; VAL : Z }.

(** [clearUnusedBits]: keep the low [w] bits. *)
Definition clearUnusedBits (w z : Z) : Z := z mod 2 ^ w.

(** [operator==(const APInt &)]: LLVM requires equal widths. *)
Definition eqb (a b : t) : bool :=
  (BitWidth a =? BitWidth b) && (VAL a =? VAL b).

(** [operator==(uint64_t)] and [operator!=(uint64_t)]. *)
Definition eq_u64 (a : t) (n : Z) : bool := VAL a =? n.
Definition ne_u64 (a : t) (n : Z) : bool := negb (eq_u64 a n).

(** [isNegative]: the top bit. *)
Definition isNegative (a : t) : bool := Z.testbit (VAL a) (BitWidth a - 1).

(** Unary minus, two's complement in [BitWidth] bits. *)
Definition neg (a : t) : t :=
  mk (BitWidth a) (clearUnusedBits (BitWidth a) (- VAL a)).

(** [abs]. *)
Definition abs (a : t) : t := if isNegative a then neg a else a.

(** [ugt(uint64_t)]: unsigned comparison. *)
Definition ugt (a : t) (n : Z) : bool := n <? VAL a.

(** [operator-(APInt, uint64_t)]. *)
Definition sub_u64 (a : t) (rhs : Z) : t :=
  mk (BitWidth a) (clearUnusedBits (BitWidth a) (VAL a - rhs)).

(** [logBase2]: index of the highest set bit. *)
Definition logBase2 (a : t) : Z := Z.log2 (VAL a).

Definition UINT32_MAX : Z := 4294967295.

(** [nearestLogBase2], an [unsigned]: [U.VAL - 1] at width 1,
    [UINT32_MAX] for zero, otherwise [lg + x[lg - 1]].  For the value 1
    the index [lg - 1] is out of range; the bit is read as 0 here. *)
Definition nearestLogBase2 (a : t) : Z :=
  if BitWidth a =? 1 then (VAL a - 1) mod 2 ^ 32
  else if VAL a =? 0 then UINT32_MAX
  else logBase2 a + Z.b2z (Z.testbit (VAL a) (logBase2 a - 1)).

(** The signed reading of the bits, for statements. *)
Definition getSExtValue (a : t) : Z :=
  if isNegative a then VAL a - 2 ^ BitWidth a else VAL a.
End APInt.

(** ** The C++ [int] arithmetic of [strengthReduction] *)

Module CInt.
Local Open Scope Z_scope.

(** [int n = u] for an [unsigned u]. *)
Definition of_unsigned (u : Z) : Z := if u <? 2 ^ 31 then u else u - 2 ^ 32.

(** [1 << n] on a 32-bit [int]: undefined for a negative count and for a
    count of 32 or more; a count of 31 gives [INT_MIN]. *)
Definition shl_one (n : Z) : option Z :=
  if (0 <=? n) && (n <? 31) then Some (2 ^ n)
  else if n =? 31 then Some (- 2 ^ 31)
  else None.

(** Conversion of an [int] to [uint64_t]. *)
Definition to_uint64 (i : Z) : Z := i mod 2 ^ 64.
End CInt.

(** ** The IR *)

(** Handles of instructions: [Instruction *] in the source. *)
Definition ident : Type := nat.

Inductive BinaryOps : Type :=
| Add | FAdd | Sub | FSub | Mul | FMul | UDiv | SDiv | FDiv
| URem | SRem | FRem | Shl | LShr | AShr | And | Or | Xor.

(** [ConstantInt] is one kind of [Constant]; [OtherConstant] stands for the
    others ([UndefValue], [ConstantExpr], globals, ...). *)
Inductive Value : Type :=
| ConstantInt (c : APInt.t)
| OtherConstant (n : nat)
| Argument (n : nat)
| InstResult (i : ident).

(** A binary operator has exactly two operands; every other instruction
    ([ret], [call], [store], ...) is kept with its operand list. *)
Inductive Instruction : Type :=
| BinaryOperator (opc : BinaryOps) (op0 op1 : Value)
| OtherInst (ops : list Value).

Definition BasicBlock : Type := list (ident * Instruction).
Definition Function : Type := list BasicBlock.
Definition Module_ : Type := list Function.

Inductive PreservedAnalyses : Type := PA_none | PA_all.

(** Outcome of the loops of the pass. *)
Inductive outcome (A : Type) : Type :=
| Returns (a : A)
| Undefined
| OutOfFuel.
Arguments Returns {A} a.
Arguments Undefined {A}.
Arguments OutOfFuel {A}.

Notation "x <- c1 ;; c2" :=
  (match c1 with Some x => c2 | None => None end)
  (at level 61, c1 at next level, right associativity).
Notation "' p <- c1 ;; c2" :=
  (match c1 with Some p => c2 | None => None end)
  (at level 61, p pattern, c1 at next level, right associativity).

Definition BinaryOps_eq_dec (a b : BinaryOps) : {a = b} + {a <> b}.
Proof. decide equality. Defined.

Definition opc_eqb (a b : BinaryOps) : bool :=
  if BinaryOps_eq_dec a b then true else false.

Definition APInt_eq_dec (a b : APInt.t) : {a = b} + {a <> b}.
Proof. decide equality; apply Z.eq_dec. Defined.

Definition Value_eq_dec (a b : Value) : {a = b} + {a <> b}.
Proof. decide equality; try apply Nat.eq_dec; apply APInt_eq_dec. Defined.

(** [isa<ConstantInt>], [isa<Constant>], [dyn_cast<ConstantInt>]. *)
Definition isa_ConstantInt (v : Value) : bool :=
  match v with ConstantInt _ => true | _ => false end.

Definition isa_Constant (v : Value) : bool :=
  match v with ConstantInt _ | OtherConstant _ => true | _ => false end.

(** [dyn_cast<ConstantInt>(v)->getValue()]: [None] is the dereference of the
    null pointer that the cast returns on anything else. *)
Definition dyn_cast_ConstantInt_getValue (v : Value) : option APInt.t :=
  match v with ConstantInt c => Some c | _ => None end.

Definition operands (I : Instruction) : list Value :=
  match I with
  | BinaryOperator _ a b => [a; b]
  | OtherInst ops => ops
  end.

(** *** Functions as stores of instructions *)

Definition instructions (F : Function) : list (ident * Instruction) := concat F.

Definition idents (F : Function) : list ident := map fst (instructions F).

Definition getInst (F : Function) (i : ident) : option Instruction :=
  match find (fun p => Nat.eqb (fst p) i) (instructions F) with
  | Some p => Some (snd p)
  | None => None
  end.

(** The use list of [i]: one entry per operand slot that holds the result
    of [i], the user named by its handle.  The library keeps the use added
    last at the head of the list; the layout order is taken here.  The
    order decides only in which order the cancellation rule pushes the
    consumers on the removal list. *)
Definition usesIn (i : ident) (p : ident * Instruction) : list ident :=
  map (fun _ => fst p)
      (filter (fun v => if Value_eq_dec v (InstResult i) then true else false)
              (operands (snd p))).

Definition uses (F : Function) (i : ident) : list ident :=
  flat_map (usesIn i) (instructions F).

(** [replaceAllUsesWith]: every operand that is the result of [old] becomes
    [new].  LLVM forbids [new] to be [old] itself (the loop over the use list
    would not end). *)
Definition replaceIn (old : ident) (new : Value) (v : Value) : Value :=
  if Value_eq_dec v (InstResult old) then new else v.

Definition replaceInInst (old : ident) (new : Value) (I : Instruction)
  : Instruction :=
  match I with
  | BinaryOperator opc a b =>
      BinaryOperator opc (replaceIn old new a) (replaceIn old new b)
  | OtherInst ops => OtherInst (map (replaceIn old new) ops)
  end.

Definition redirect (old : ident) (new : Value) (F : Function) : Function :=
  map (map (fun p => (fst p, replaceInInst old new (snd p)))) F.

Definition replaceAllUsesWith (F : Function) (old : ident) (new : Value)
  : option Function :=
  if Value_eq_dec new (InstResult old) then None
  else Some (redirect old new F).

(** A newly created instruction gets a handle no instruction of the function
    has. *)
Definition fresh (F : Function) : ident := S (list_max (idents F)).

(** [New->insertAfter(Anchor)].  The list functions of a block are written
    for any payload, so that they also apply to a block stripped of its
    operands. *)
Fixpoint insertAfterInBlock {A : Type} (anchor : ident) (new : ident * A)
  (B : list (ident * A)) : list (ident * A) :=
  match B with
  | [] => []
  | p :: rest =>
      if Nat.eqb (fst p) anchor then p :: new :: rest
      else p :: insertAfterInBlock anchor new rest
  end.

Definition insertAfter (F : Function) (anchor : ident)
  (new : ident * Instruction) : Function :=
  map (insertAfterInBlock anchor new) F.

(** [eraseFromParent]: the instruction leaves its block and is deleted. *)
Definition eraseFromParent (F : Function) (i : ident) : Function :=
  map (filter (fun p => negb (Nat.eqb (fst p) i))) F.

Definition isLive (F : Function) (i : ident) : bool :=
  existsb (Nat.eqb i) (idents F).

(** ** The pass *)

(** [checkOperands], on the two operands of a binary instruction. *)
Definition checkOperands (op0 op1 : Value) : bool :=
  if negb (isa_ConstantInt op0) && negb (isa_ConstantInt op1) then false
  else if isa_ConstantInt op0 && isa_ConstantInt op1 then false
  else true.

(** [algebraicIdentity]. *)
Definition algebraicIdentity (F : Function) (Instr : ident)
  : option (Function * bool) :=
  match getInst F Instr with
  | None => None
  | Some (OtherInst _) => Some (F, false)
  | Some (BinaryOperator opc op0 op1) =>
      if negb (checkOperands op0 op1) then Some (F, false) else
      let isFirstOperandConst := isa_Constant op0 in
      ConstValue <- dyn_cast_ConstantInt_getValue
                      (if isFirstOperandConst then op0 else op1) ;;
      if (opc_eqb opc Add && APInt.eq_u64 ConstValue 0)
         || (opc_eqb opc Sub && APInt.eq_u64 ConstValue 0)
         || (opc_eqb opc Mul && APInt.eq_u64 ConstValue 1)
         || (opc_eqb opc SDiv && APInt.eq_u64 ConstValue 1)
      then
        F' <- replaceAllUsesWith F Instr
                (if isFirstOperandConst then op1 else op0) ;;
        Some (F', true)
      else Some (F, false)
  end.

(** [strengthReduction]. *)
Definition strengthReduction (F : Function) (Instr : ident)
  : option (Function * bool) :=
  match getInst F Instr with
  | None => None
  | Some (OtherInst _) => Some (F, false)
  | Some (BinaryOperator opc op0 op1) =>
      if negb (checkOperands op0 op1) then Some (F, false) else
      let isMul := opc_eqb opc Mul in
      if negb isMul && negb (opc_eqb opc SDiv) then Some (F, false) else
      ConstVal <- dyn_cast_ConstantInt_getValue
                    (if isa_ConstantInt op0 then op0 else op1) ;;
      let NearestLog := CInt.of_unsigned (APInt.nearestLogBase2 ConstVal) in
      pow <- CInt.shl_one NearestLog ;;
      let Rest := APInt.sub_u64 ConstVal (CInt.to_uint64 pow) in
      if APInt.ugt (APInt.abs Rest) 1 then Some (F, false) else
      if negb isMul && APInt.ne_u64 Rest 0 then Some (F, false) else
      let ConstLog :=
        ConstantInt (APInt.mk 32 (APInt.clearUnusedBits 32 NearestLog)) in
      let v := if isa_ConstantInt op0 then op1 else op0 in
      let ShiftInst := BinaryOperator (if isMul then Shl else AShr) v ConstLog in
      let s := fresh F in
      if isMul && APInt.ne_u64 Rest 0 then
        let RestInst :=
          BinaryOperator (if APInt.ugt Rest 0 then Add else Sub)
                         (InstResult s) v in
        let F1 := insertAfter F Instr (s, ShiftInst) in
        let r := fresh F1 in
        let F2 := insertAfter F1 s (r, RestInst) in
        F3 <- replaceAllUsesWith F2 Instr (InstResult r) ;;
        Some (F3, true)
      else
        let F1 := insertAfter F Instr (s, ShiftInst) in
        F2 <- replaceAllUsesWith F1 Instr (InstResult s) ;;
        Some (F2, true)
  end.

(** The opcode test of [multiInstructionOptimization]. *)
Definition oppositeOps (opI opJ : BinaryOps) : bool :=
  (opc_eqb opI Add && opc_eqb opJ Sub)
  || (opc_eqb opI Sub && opc_eqb opJ Add)
  || (opc_eqb opI Mul && opc_eqb opJ SDiv)
  || (opc_eqb opI SDiv && opc_eqb opJ Mul).

(** One turn of the loop over the use list of [Instr]; [IterInstr] is the
    user of the current use. *)
Definition cancelUse (Instr : ident) (InitConstant : APInt.t)
  (st : Function * list ident) (IterInstr : ident)
  : option (Function * list ident) :=
  let F := fst st in
  let toRemove := snd st in
  match getInst F IterInstr with
  | None => None
  | Some (OtherInst _) => Some st
  | Some (BinaryOperator opJ j0 j1) =>
      if negb (checkOperands j0 j1) then Some st else
      match getInst F Instr with
      | Some (BinaryOperator opI i0 i1) =>
          if oppositeOps opI opJ then
            IterConstant <- dyn_cast_ConstantInt_getValue
                              (if isa_Constant i0 then j0 else j1) ;;
            if APInt.eqb InitConstant IterConstant then
              F' <- replaceAllUsesWith F IterInstr
                      (if isa_Constant i0 then i1 else i0) ;;
              Some (F', toRemove ++ [IterInstr])
            else Some st
          else Some st
      | _ => None
      end
  end.

Fixpoint forEachUse (Instr : ident) (InitConstant : APInt.t)
  (us : list ident) (st : Function * list ident)
  : option (Function * list ident) :=
  match us with
  | [] => Some st
  | u :: rest =>
      st' <- cancelUse Instr InitConstant st u ;;
      forEachUse Instr InitConstant rest st'
  end.

(** [multiInstructionOptimization]. *)
Definition multiInstructionOptimization (F : Function) (Instr : ident)
  (toRemove : list ident) : option (Function * list ident) :=
  match getInst F Instr with
  | None => None
  | Some (OtherInst _) => Some (F, toRemove)
  | Some (BinaryOperator opc op0 op1) =>
      if negb (checkOperands op0 op1) then Some (F, toRemove) else
      InitConstant <- dyn_cast_ConstantInt_getValue
                        (if isa_Constant op0 then op0 else op1) ;;
      forEachUse Instr InitConstant (uses F Instr) (F, toRemove)
  end.

(** The body of the loop of [runOnBasicBlock]. *)
Definition visit (F : Function) (Instr : ident) (toRemove : list ident)
  : option (Function * list ident) :=
  ' (F1, identity) <- algebraicIdentity F Instr ;;
  ' (F2, matched) <-
      (if identity then Some (F1, true) else strengthReduction F1 Instr) ;;
  multiInstructionOptimization F2 Instr
    (if matched then toRemove ++ [Instr] else toRemove).

(** Iteration over the block: [begin] and the step of the iterator. *)
Definition getBlock (F : Function) (bi : nat) : BasicBlock := nth bi F [].

Definition front {A : Type} (B : list (ident * A)) : option ident :=
  match B with
  | [] => None
  | p :: _ => Some (fst p)
  end.

Fixpoint getNextNode {A : Type} (B : list (ident * A)) (cur : ident)
  : option ident :=
  match B with
  | [] => None
  | p :: rest =>
      if Nat.eqb (fst p) cur then front rest else getNextNode rest cur
  end.

(** The forward scan of block [bi], from the instruction [cur] on. *)
Fixpoint scan (fuel : nat) (F : Function) (bi : nat) (cur : option ident)
  (toRemove : list ident) : outcome (Function * list ident) :=
  match cur with
  | None => Returns (F, toRemove)
  | Some Instr =>
      match fuel with
      | O => OutOfFuel
      | S fuel' =>
          match visit F Instr toRemove with
          | None => Undefined
          | Some (F', toRemove') =>
              scan fuel' F' bi (getNextNode (getBlock F' bi) Instr) toRemove'
          end
      end
  end.

(** The second loop of [runOnBasicBlock]; erasing an instruction that is no
    longer there is a use after free. *)
Fixpoint eraseAll (F : Function) (toRemove : list ident) : option Function :=
  match toRemove with
  | [] => Some F
  | i :: rest =>
      if isLive F i then eraseAll (eraseFromParent F i) rest else None
  end.

(** Each instruction of the block is visited once and a visit inserts at
    most two instructions. *)
Definition scanFuel (F : Function) (bi : nat) : nat :=
  3 * length (getBlock F bi).

(** [runOnBasicBlock], on block number [bi] of [F]. *)
Definition runOnBasicBlock (F : Function) (bi : nat)
  : outcome (Function * bool) :=
  match scan (scanFuel F bi) F bi (front (getBlock F bi)) [] with
  | Returns (F1, toRemove) =>
      match eraseAll F1 toRemove with
      | Some F2 => Returns (F2, true)
      | None => Undefined
      end
  | Undefined => Undefined
  | OutOfFuel => OutOfFuel
  end.

(** [runOnFunction]: [n] blocks are left, the next one is number [bi]. *)
Fixpoint runOnBlocks (n : nat) (bi : nat) (F : Function) (Transformed : bool)
  : outcome (Function * bool) :=
  match n with
  | O => Returns (F, Transformed)
  | S n' =>
      match runOnBasicBlock F bi with
      | Returns (F', b) =>
          runOnBlocks n' (S bi) F' (if b then true else Transformed)
      | Undefined => Undefined
      | OutOfFuel => OutOfFuel
      end
  end.

Definition runOnFunction (F : Function) : outcome (Function * bool) :=
  runOnBlocks (length F) 0 F false.

(** [LocalOpts::run]: [done] are the functions already passed. *)
Fixpoint runOnFunctions (done todo : list Function)
  : outcome (Module_ * PreservedAnalyses) :=
  match todo with
  | [] => Returns (done, PA_all)
  | F :: rest =>
      match runOnFunction F with
      | Returns (F', b) =>
          if b then Returns (done ++ F' :: rest, PA_none)
          else runOnFunctions (done ++ [F']) rest
      | Undefined => Undefined
      | OutOfFuel => OutOfFuel
      end
  end.

Definition run (M : Module_) : outcome (Module_ * PreservedAnalyses) :=
  runOnFunctions [] M.

(** ** Values that are referenced, and the state of a finished scan *)

Definition allOperands (F : Function) : list Value :=
  flat_map (fun p => operands (snd p)) (instructions F).

(** Some instruction of [F] has the result of [k] as an operand. *)
Definition references (F : Function) (k : ident) : Prop :=
  In (InstResult k) (allOperands F).

(** No operand of [F] points outside [F]. *)
Definition closed (F : Function) : Prop :=
  forall k, references F k -> In k (idents F).

(** [F] without the instructions listed in [toRemove]. *)
Definition without (toRemove : list ident) (F : Function) : Function :=
  map (filter (fun p => negb (existsb (Nat.eqb (fst p)) toRemove))) F.

(** What the scan keeps true: [F0] is the function at the start of the scan,
    [F] the function now, [toRemove] the removal list now. *)
Record scanInv (F0 F : Function) (toRemove : list ident) : Prop := {
  inv_kept : incl (idents F0) (idents F);
  inv_live : incl toRemove (idents F);
  inv_unused : forall k, references F k -> ~ In k toRemove;
  inv_closed : closed F0 -> closed F
}.

(** A value that may become an operand: it is an operand already, or the
    result of a live instruction that is not on the removal list. *)
Definition usable (F : Function) (toRemove : list ident) (v : Value) : Prop :=
  forall k, v = InstResult k ->
    references F k \/ (In k (idents F) /\ ~ In k toRemove).

(** ** Sample blocks *)

Definition i32 (z : Z) : Value :=
  ConstantInt (APInt.mk 32 (APInt.clearUnusedBits 32 z)).
Definition arg_x : Value := Argument 0.
Definition arg_y : Value := Argument 1.
Definition undef : Value := OtherConstant 0.
Definition ret (v : Value) : Instruction := OtherInst [v].

(** [%1 = add i32 5, %x; %2 = sub i32 %1, 5; ret %2] *)
Definition add_then_sub_other_slot : Function :=
  [[ (1, BinaryOperator Add (i32 5) arg_x);
     (2, BinaryOperator Sub (InstResult 1) (i32 5));
     (3, ret (InstResult 2)) ]].

(** [%1 = add i32 %x, 5; %2 = sub i32 %1, 5; ret %2] *)
Definition add_then_sub_same_slot : Function :=
  [[ (1, BinaryOperator Add arg_x (i32 5));
     (2, BinaryOperator Sub (InstResult 1) (i32 5));
     (3, ret (InstResult 2)) ]].

(** [%1 = mul i32 %x, 7; ret %1] *)
Definition mul_by_7 : Function :=
  [[ (1, BinaryOperator Mul arg_x (i32 7)); (2, ret (InstResult 1)) ]].

(** [%1 = mul i32 %x, 9; ret %1] *)
Definition mul_by_9 : Function :=
  [[ (1, BinaryOperator Mul arg_x (i32 9)); (2, ret (InstResult 1)) ]].

(** [%1 = add i32 %x, %y; ret %1] *)
Definition add_of_arguments : Function :=
  [[ (1, BinaryOperator Add arg_x arg_y); (2, ret (InstResult 1)) ]].

(** [%1 = add i32 %x, 0; ret %1] *)
Definition add_zero : Function :=
  [[ (1, BinaryOperator Add arg_x (i32 0)); (2, ret (InstResult 1)) ]].

(** [%1 = mul i32 %x, 8; ret %1] and what one run makes of it. *)
Definition mul_by_8 : Function :=
  [[ (1, BinaryOperator Mul arg_x (i32 8)); (2, ret (InstResult 1)) ]].
Definition mul_by_8_reduced : Function :=
  [[ (3, BinaryOperator Shl arg_x (i32 3)); (2, ret (InstResult 3)) ]].

(** [%1 = sdiv i32 %x, -2147483648; ret %1] *)
Definition sdiv_by_int_min : Function :=
  [[ (1, BinaryOperator SDiv arg_x (i32 (-2147483648)));
     (2, ret (InstResult 1)) ]].

(** [%1 = mul i32 %x, 0; ret %1] *)
Definition mul_by_0 : Function :=
  [[ (1, BinaryOperator Mul arg_x (i32 0)); (2, ret (InstResult 1)) ]].

(** [%1 = mul i32 %x, -3; ret %1] *)
Definition mul_by_minus_3 : Function :=
  [[ (1, BinaryOperator Mul arg_x (i32 (-3))); (2, ret (InstResult 1)) ]].

(** [%1 = add i32 undef, 0; ret %1] *)
Definition add_undef_zero : Function :=
  [[ (1, BinaryOperator Add undef (i32 0)); (2, ret (InstResult 1)) ]].

(** [%1 = sub i32 0, %x; ret %1] *)
Definition sub_zero_left : Function :=
  [[ (1, BinaryOperator Sub (i32 0) arg_x); (2, ret (InstResult 1)) ]].

(** [%1 = sdiv i32 %x, 3; %2 = mul i32 %1, 3; ret %2] *)
Definition sdiv_then_mul_by_3 : Function :=
  [[ (1, BinaryOperator SDiv arg_x (i32 3));
     (2, BinaryOperator Mul (InstResult 1) (i32 3));
     (3, ret (InstResult 2)) ]].

(** [%1 = add %x, 0; %2 = mul %1, 8; %3 = add %2, 5; %4 = sub %3, 5; ret %4] *)
Definition three_rules : Function :=
  [[ (1, BinaryOperator Add arg_x (i32 0));
     (2, BinaryOperator Mul (InstResult 1) (i32 8));
     (3, BinaryOperator Add (InstResult 2) (i32 5));
     (4, BinaryOperator Sub (InstResult 3) (i32 5));
     (5, ret (InstResult 4)) ]].
Definition three_rules_scanned : Function :=
  [[ (1, BinaryOperator Add arg_x (i32 0));
     (2, BinaryOperator Mul arg_x (i32 8));
     (6, BinaryOperator Shl arg_x (i32 3));
     (3, BinaryOperator Add (InstResult 6) (i32 5));
     (4, BinaryOperator Sub (InstResult 3) (i32 5));
     (5, ret (InstResult 6)) ]].
Definition three_rules_reduced : Function :=
  [[ (6, BinaryOperator Shl arg_x (i32 3));
     (3, BinaryOperator Add (InstResult 6) (i32 5));
     (5, ret (InstResult 6)) ]].

(** [%1 = add %x, 5; %2 = add %1, 7; %3 = sub %2, 7; %4 = sub %3, 5; ret %4]
    and what one run and two runs make of it. *)
Definition nested_cancellation : Function :=
  [[ (1, BinaryOperator Add arg_x (i32 5));
     (2, BinaryOperator Add (InstResult 1) (i32 7));
     (3, BinaryOperator Sub (InstResult 2) (i32 7));
     (4, BinaryOperator Sub (InstResult 3) (i32 5));
     (5, ret (InstResult 4)) ]].
Definition nested_cancellation_once : Function :=
  [[ (1, BinaryOperator Add arg_x (i32 5));
     (2, BinaryOperator Add (InstResult 1) (i32 7));
     (4, BinaryOperator Sub (InstResult 1) (i32 5));
     (5, ret (InstResult 4)) ]].
Definition nested_cancellation_twice : Function :=
  [[ (1, BinaryOperator Add arg_x (i32 5));
     (2, BinaryOperator Add (InstResult 1) (i32 7));
     (5, ret arg_x) ]].

(** ** The rules as the specification words them *)

(** The pairs of opcode and constant of the Algebraic Identity Rule. *)
Definition identityPair (opc : BinaryOps) (c : APInt.t) : bool :=
  match opc with
  | Add | Sub => APInt.eq_u64 c 0
  | Mul | SDiv => APInt.eq_u64 c 1
  | _ => false
  end.

(** The remainder [r = c - 2^k] of the Strength Reduction Rule, [k] the
    nearest logarithm, on the unsigned value of the constant. *)
Definition remainder (c : APInt.t) : Z :=
  (APInt.VAL c - 2 ^ APInt.nearestLogBase2 c)%Z.

(** No rule fires on the instruction [K]: a visit changes nothing. *)
Definition unmatched (F : Function) (K : ident) : Prop :=
  forall rm, visit F K rm = Some (F, rm).

(** A block on which no rule fires. *)
Definition fullyReduced (F : Function) (bi : nat) : Prop :=
  forall K, In K (map fst (getBlock F bi)) -> unmatched F K.

(** ** The measure of the scan *)

(** Only a [mul] or an [sdiv] can make the scan insert instructions, two at
    most. *)
Definition weight (I : Instruction) : nat :=
  match I with
  | BinaryOperator Mul _ _ | BinaryOperator SDiv _ _ => 3
  | _ => 1
  end.

(** A block reduced to handles and weights. *)
Definition skeleton (B : BasicBlock) : list (ident * nat) :=
  map (fun p => (fst p, weight (snd p))) B.

Definition totalWeight (S : list (ident * nat)) : nat :=
  list_sum (map snd S).

(** [F'] has the instructions of [F] at the same places, operands apart. *)
Definition sameLayout (F F' : Function) : Prop :=
  idents F' = idents F
  /\ forall bi, skeleton (getBlock F' bi) = skeleton (getBlock F bi).

(** ** What a visit is made of *)

(** The opcodes of the instructions the pass ever marks. *)
Definition erasableOp (opc : BinaryOps) : bool :=
  match opc with
  | Add | Sub | Mul | SDiv => true
  | _ => false
  end.

Definition opcodeOf (I : Instruction) : option BinaryOps :=
  match I with
  | BinaryOperator opc _ _ => Some opc
  | OtherInst _ => None
  end.

(** A binary operator with exactly one integer constant among its operands. *)
Definition isMixed (I : Instruction) : bool :=
  match I with
  | BinaryOperator _ op0 op1 => checkOperands op0 op1
  | OtherInst _ => false
  end.

(** The two things the rules do to the function and the removal list: insert
    a new instruction behind one that is there, and redirect the uses of an
    [add], [sub], [mul] or [sdiv] that is then put on the list. *)
Inductive step : Function * list ident -> Function * list ident -> Prop :=
| step_insert (F : Function) (rm : list ident) (a n : ident)
    (I : Instruction) :
    In a (idents F) -> ~ In n (idents F) ->
    step (F, rm) (insertAfter F a (n, I), rm)
| step_mark (F F' : Function) (rm : list ident) (K : ident)
    (opc : BinaryOps) (a b v : Value) :
    getInst F K = Some (BinaryOperator opc a b) ->
    erasableOp opc = true ->
    replaceAllUsesWith F K v = Some F' ->
    step (F, rm) (F', rm ++ [K]).

Inductive steps : Function * list ident -> Function * list ident -> Prop :=
| steps_refl (st : Function * list ident) : steps st st
| steps_cons (st1 st2 st3 : Function * list ident) :
    step st1 st2 -> steps st2 st3 -> steps st1 st3.

(** What the removal list holds: handles of [add], [sub], [mul] and [sdiv]
    instructions of the function. *)
Definition listedArithmetic (F : Function) (rm : list ident) : Prop :=
  forall k, In k rm ->
    exists opc a b,
      getInst F k = Some (BinaryOperator opc a b) /\ erasableOp opc = true.

(** [%1 = sdiv i32 %x, 8; ret %1] *)
Definition sdiv_by_8 : Function :=
  [[ (1, BinaryOperator SDiv arg_x (i32 8)); (2, ret (InstResult 1)) ]].

Definition sdiv_then_mul_by_3_scanned : Function :=
  [[ (1, BinaryOperator SDiv arg_x (i32 3));
     (2, BinaryOperator Mul (InstResult 1) (i32 3));
     (4, BinaryOperator Shl (InstResult 1) (i32 2));
     (5, BinaryOperator Add (InstResult 4) (InstResult 1));
     (3, ret arg_x) ]].

(** [mul_by_8] after the scan, before the marked [mul] is erased. *)
Definition mul_by_8_scanned : Function :=
  [[ (1, BinaryOperator Mul arg_x (i32 8));
     (3, BinaryOperator Shl arg_x (i32 3));
     (2, ret (InstResult 3)) ]].

(** [mul_by_9] and [sdiv_by_8] after the visit of their first instruction. *)
Definition mul_by_9_scanned : Function :=
  [[ (1, BinaryOperator Mul arg_x (i32 9));
     (3, BinaryOperator Shl arg_x (i32 3));
     (4, BinaryOperator Add (InstResult 3) arg_x);
     (2, ret (InstResult 4)) ]].
Definition sdiv_by_8_scanned : Function :=
  [[ (1, BinaryOperator SDiv arg_x (i32 8));
     (3, BinaryOperator AShr arg_x (i32 3));
     (2, ret (InstResult 3)) ]].

(** [add_then_sub_same_slot] after the visit of its first instruction. *)
Definition add_then_sub_same_slot_scanned : Function :=
  [[ (1, BinaryOperator Add arg_x (i32 5));
     (2, BinaryOperator Sub (InstResult 1) (i32 5));
     (3, ret arg_x) ]].

(** [%1 = add %x, %y; %2 = mul 3, 4; %3 = call @f(%1, 0); ret %2]: no
    binary operator with exactly one integer constant. *)
Definition unmixed_operators : Function :=
  [[ (1, BinaryOperator Add arg_x arg_y);
     (2, BinaryOperator Mul (i32 3) (i32 4));
     (3, OtherInst [InstResult 1; i32 0]);
     (4, ret (InstResult 2)) ]].

(** [%1 = mul i64 %x, 1099511627776; ret %1] *)
Definition mul_by_2_pow_40 : Function :=
  [[ (1, BinaryOperator Mul arg_x (ConstantInt (APInt.mk 64 (2 ^ 40))));
     (2, ret (InstResult 1)) ]].

(** * Properties *)

(** ** The store of instructions *)

Lemma getInst_In (F : Function) (i : ident) (I : Instruction) :
  getInst F i = Some I -> In (i, I) (instructions F).
Proof.
  unfold getInst.
  destruct (find (fun p => Nat.eqb (fst p) i) (instructions F)) as [p|] eqn:E;
    [|discriminate].
  intros [= <-]. apply find_some in E. destruct E as [Hin Heq].
  apply Nat.eqb_eq in Heq. destruct p as [j J]; simpl in *.
  subst j. exact Hin.
Qed.

Lemma getInst_ident (F : Function) (i : ident) (I : Instruction) :
  getInst F i = Some I -> In i (idents F).
Proof.
  intros H. apply getInst_In in H.
  unfold idents. change i with (fst (i, I)). now apply in_map.
Qed.

Lemma In_allOperands (F : Function) (i : ident) (I : Instruction) (v : Value) :
  In (i, I) (instructions F) -> In v (operands I) -> In v (allOperands F).
Proof.
  intros Hin Hv. unfold allOperands. apply in_flat_map.
  exists (i, I). split; assumption.
Qed.

Lemma getInst_references (F : Function) (i k : ident) (I : Instruction) :
  getInst F i = Some I -> In (InstResult k) (operands I) -> references F k.
Proof.
  intros H Hv. apply getInst_In in H. eapply In_allOperands; eassumption.
Qed.

Lemma le_list_max (l : list nat) (n : nat) : In n l -> n <= list_max l.
Proof.
  induction l as [|a l IH]; simpl; intros H; [contradiction|].
  destruct H as [->|H]; [lia|]. specialize (IH H). lia.
Qed.

Lemma fresh_not_In (F : Function) : ~ In (fresh F) (idents F).
Proof.
  unfold fresh. intros H. apply le_list_max in H. lia.
Qed.

(** *** [replaceAllUsesWith] *)

Lemma replaceAllUsesWith_Some (F F' : Function) (old : ident) (new : Value) :
  replaceAllUsesWith F old new = Some F' ->
  new <> InstResult old /\ F' = redirect old new F.
Proof.
  unfold replaceAllUsesWith.
  destruct (Value_eq_dec new (InstResult old)); [discriminate|].
  intros [= <-]. split; [assumption|reflexivity].
Qed.

Lemma instructions_redirect (old : ident) (new : Value) (F : Function) :
  instructions (redirect old new F)
  = map (fun p => (fst p, replaceInInst old new (snd p))) (instructions F).
Proof.
  unfold instructions, redirect. symmetry. apply concat_map.
Qed.

Lemma idents_redirect (old : ident) (new : Value) (F : Function) :
  idents (redirect old new F) = idents F.
Proof.
  unfold idents. rewrite instructions_redirect, map_map. reflexivity.
Qed.

Lemma operands_replaceInInst (old : ident) (new : Value) (I : Instruction) :
  operands (replaceInInst old new I) = map (replaceIn old new) (operands I).
Proof. destruct I; reflexivity. Qed.

Lemma allOperands_redirect (old : ident) (new : Value) (F : Function) :
  allOperands (redirect old new F) = map (replaceIn old new) (allOperands F).
Proof.
  unfold allOperands. rewrite instructions_redirect.
  induction (instructions F) as [|p l IH]; simpl; [reflexivity|].
  rewrite map_app, operands_replaceInInst, IH. reflexivity.
Qed.

(** After the redirection nothing refers to [old] any more. *)
Lemma references_redirect (old : ident) (new : Value) (F : Function) (k : ident) :
  new <> InstResult old ->
  references (redirect old new F) k ->
  k <> old /\ (references F k \/ new = InstResult k).
Proof.
  unfold references. rewrite allOperands_redirect. intros Hnew H.
  apply in_map_iff in H. destruct H as [v [Hv Hin]].
  unfold replaceIn in Hv.
  destruct (Value_eq_dec v (InstResult old)) as [->|Hne].
  - split; [intros ->; congruence|right; assumption].
  - subst v. split; [congruence|left; assumption].
Qed.

(** *** [insertAfter] *)

Lemma In_insertAfterInBlock {A : Type} (a : ident) (n p : ident * A)
  (B : list (ident * A)) :
  In p (insertAfterInBlock a n B) -> In p B \/ p = n.
Proof.
  induction B as [|q B IH]; simpl; [tauto|].
  destruct (Nat.eqb (fst q) a); simpl; intuition auto.
Qed.

Lemma In_insertAfterInBlock_old {A : Type} (a : ident) (n p : ident * A)
  (B : list (ident * A)) :
  In p B -> In p (insertAfterInBlock a n B).
Proof.
  induction B as [|q B IH]; simpl; [tauto|].
  destruct (Nat.eqb (fst q) a); simpl; intuition auto.
Qed.

Lemma In_insertAfter (F : Function) (a : ident) (n p : ident * Instruction) :
  In p (instructions (insertAfter F a n)) -> In p (instructions F) \/ p = n.
Proof.
  unfold instructions, insertAfter. intros H.
  apply in_concat in H. destruct H as [B' [HB' Hp]].
  apply in_map_iff in HB'. destruct HB' as [B [<- HB]].
  apply In_insertAfterInBlock in Hp. destruct Hp as [Hp|Hp]; [left|now right].
  apply in_concat. exists B. split; assumption.
Qed.

Lemma In_insertAfter_old (F : Function) (a : ident) (n p : ident * Instruction) :
  In p (instructions F) -> In p (instructions (insertAfter F a n)).
Proof.
  unfold instructions, insertAfter. intros H.
  apply in_concat in H. destruct H as [B [HB Hp]].
  apply in_concat. exists (insertAfterInBlock a n B). split.
  - apply in_map. exact HB.
  - apply In_insertAfterInBlock_old. exact Hp.
Qed.

Lemma idents_insertAfter_old (F : Function) (a : ident)
  (n : ident * Instruction) :
  incl (idents F) (idents (insertAfter F a n)).
Proof.
  intros k H. unfold idents in *. apply in_map_iff in H.
  destruct H as [p [<- Hp]]. apply in_map. now apply In_insertAfter_old.
Qed.

Lemma idents_insertAfter (F : Function) (a k : ident)
  (n : ident * Instruction) :
  In k (idents (insertAfter F a n)) -> In k (idents F) \/ k = fst n.
Proof.
  unfold idents. intros H. apply in_map_iff in H.
  destruct H as [p [<- Hp]]. apply In_insertAfter in Hp.
  destruct Hp as [Hp| ->]; [left; now apply in_map|now right].
Qed.

Lemma references_insertAfter (F : Function) (a k : ident)
  (n : ident * Instruction) :
  references (insertAfter F a n) k ->
  references F k \/ In (InstResult k) (operands (snd n)).
Proof.
  unfold references, allOperands. intros H.
  apply in_flat_map in H. destruct H as [p [Hp Hv]].
  apply In_insertAfter in Hp. destruct Hp as [Hp| ->]; [left|now right].
  apply in_flat_map. exists p. split; assumption.
Qed.

Lemma references_insertAfter_old (F : Function) (a k : ident)
  (n : ident * Instruction) :
  references F k -> references (insertAfter F a n) k.
Proof.
  unfold references, allOperands. intros H.
  apply in_flat_map in H. destruct H as [p [Hp Hv]].
  apply in_flat_map. exists p. split; [now apply In_insertAfter_old|assumption].
Qed.

Lemma In_insertAfterInBlock_new {A : Type} (a : ident) (n : ident * A)
  (B : list (ident * A)) :
  In a (map fst B) -> In n (insertAfterInBlock a n B).
Proof.
  induction B as [|q B IH]; simpl; [tauto|].
  destruct (Nat.eqb (fst q) a) eqn:E; simpl.
  - intros _. right. now left.
  - intros [H|H]; [apply Nat.eqb_neq in E; contradiction|].
    right. apply IH. exact H.
Qed.

Lemma In_insertAfter_new (F : Function) (a : ident) (n : ident * Instruction) :
  In a (idents F) -> In (fst n) (idents (insertAfter F a n)).
Proof.
  unfold idents, instructions, insertAfter. intros H.
  apply in_map_iff in H. destruct H as [p [Hp Hin]].
  apply in_concat in Hin. destruct Hin as [B [HB HpB]].
  apply in_map, in_concat. exists (insertAfterInBlock a n B). split.
  - apply in_map. exact HB.
  - apply In_insertAfterInBlock_new. subst a. apply in_map. exact HpB.
Qed.

(** ** The invariant of the scan *)

Lemma scanInv_start (F : Function) : scanInv F F [].
Proof.
  split.
  - apply incl_refl.
  - intros k [].
  - intros k _ [].
  - exact (fun H => H).
Qed.

Lemma usable_operand (F : Function) (rm : list ident) (i : ident)
  (I : Instruction) (v : Value) :
  getInst F i = Some I -> In v (operands I) -> usable F rm v.
Proof.
  intros H Hv k ->. left. eapply getInst_references; eassumption.
Qed.

Lemma usable_ConstantInt (F : Function) (rm : list ident) (c : APInt.t) :
  usable F rm (ConstantInt c).
Proof. intros k H. discriminate. Qed.

Lemma usable_insertAfter (F : Function) (rm : list ident) (a : ident)
  (n : ident * Instruction) (v : Value) :
  usable F rm v -> usable (insertAfter F a n) rm v.
Proof.
  intros H k Hk. destruct (H k Hk) as [Hr|[Hi Hn]].
  - left. now apply references_insertAfter_old.
  - right. split; [now apply idents_insertAfter_old|assumption].
Qed.

(** The result of a freshly inserted instruction may be used. *)
Lemma usable_inserted (F : Function) (rm : list ident) (a n : ident)
  (I : Instruction) :
  incl rm (idents F) -> In a (idents F) -> ~ In n (idents F) ->
  usable (insertAfter F a (n, I)) rm (InstResult n).
Proof.
  intros Hlive Ha Hn k [= <-]. right. split.
  - apply (In_insertAfter_new F a (n, I)). exact Ha.
  - intros Hin. apply Hn, Hlive, Hin.
Qed.

Lemma scanInv_insertAfter (F0 F : Function) (rm : list ident) (a n : ident)
  (I : Instruction) :
  scanInv F0 F rm ->
  (forall v, In v (operands I) -> usable F rm v) ->
  scanInv F0 (insertAfter F a (n, I)) rm.
Proof.
  intros [Hkept Hlive Hunused Hclosed] HI. split.
  - eapply incl_tran; [exact Hkept|apply idents_insertAfter_old].
  - eapply incl_tran; [exact Hlive|apply idents_insertAfter_old].
  - intros k Hk. apply references_insertAfter in Hk.
    destruct Hk as [Hk|Hk]; [now apply Hunused|].
    destruct (HI _ Hk k eq_refl) as [Hr|[_ Hn]]; [now apply Hunused|exact Hn].
  - intros HF0 k Hk. apply idents_insertAfter_old.
    apply references_insertAfter in Hk.
    destruct Hk as [Hk|Hk]; [now apply Hclosed|].
    destruct (HI _ Hk k eq_refl) as [Hr|[Hi _]]; [now apply Hclosed|exact Hi].
Qed.

(** Redirecting the uses of [K] and putting [K] on the removal list. *)
Lemma scanInv_replace (F0 F F' : Function) (rm : list ident) (K : ident)
  (v : Value) :
  scanInv F0 F rm -> In K (idents F) -> usable F rm v ->
  replaceAllUsesWith F K v = Some F' ->
  scanInv F0 F' (rm ++ [K]).
Proof.
  intros [Hkept Hlive Hunused Hclosed] HK Hv HR.
  apply replaceAllUsesWith_Some in HR. destruct HR as [Hne ->]. split.
  - rewrite idents_redirect. exact Hkept.
  - rewrite idents_redirect. intros k Hk. apply in_app_or in Hk.
    destruct Hk as [Hk|[<-|[]]]; [now apply Hlive|exact HK].
  - intros k Hk Hin. apply references_redirect in Hk; [|exact Hne].
    destruct Hk as [HkK Hk]. apply in_app_or in Hin.
    destruct Hin as [Hin|[->|[]]]; [|now apply HkK].
    destruct Hk as [Hk|Hk]; [exact (Hunused k Hk Hin)|].
    destruct (Hv k Hk) as [Hr|[_ Hn]]; [exact (Hunused k Hr Hin)|exact (Hn Hin)].
  - intros HF0 k Hk. rewrite idents_redirect.
    apply references_redirect in Hk; [|exact Hne].
    destruct Hk as [_ [Hk|Hk]]; [now apply Hclosed|].
    destruct (Hv k Hk) as [Hr|[Hi _]]; [now apply Hclosed|exact Hi].
Qed.

Ltac keep_state H := intros [= <- <-]; exact H.

Lemma algebraicIdentity_inv (F0 F F' : Function) (rm : list ident) (K : ident)
  (m : bool) :
  scanInv F0 F rm -> algebraicIdentity F K = Some (F', m) ->
  scanInv F0 F' (if m then rm ++ [K] else rm).
Proof.
  unfold algebraicIdentity. intros Hinv.
  destruct (getInst F K) as [[opc a b|ops]|] eqn:EK;
    [|keep_state Hinv|discriminate].
  destruct (negb (checkOperands a b)); [keep_state Hinv|].
  destruct (dyn_cast_ConstantInt_getValue _) as [c|]; [|discriminate].
  match goal with |- context [if ?b then _ else Some (F, false)] =>
    destruct b end; [|keep_state Hinv].
  destruct (replaceAllUsesWith _ _ _) as [F1|] eqn:ER; [|discriminate].
  intros [= <- <-]. eapply scanInv_replace; [exact Hinv| | |exact ER].
  - eapply getInst_ident; eassumption.
  - eapply usable_operand; [exact EK|].
    destruct (isa_Constant a); simpl; auto.
Qed.

Lemma strengthReduction_inv (F0 F F' : Function) (rm : list ident) (K : ident)
  (m : bool) :
  scanInv F0 F rm -> strengthReduction F K = Some (F', m) ->
  scanInv F0 F' (if m then rm ++ [K] else rm).
Proof.
  unfold strengthReduction. intros Hinv.
  destruct (getInst F K) as [[opc a b|ops]|] eqn:EK;
    [|keep_state Hinv|discriminate].
  destruct (negb (checkOperands a b)); [keep_state Hinv|].
  destruct (negb (opc_eqb opc Mul) && negb (opc_eqb opc SDiv));
    [keep_state Hinv|].
  destruct (dyn_cast_ConstantInt_getValue _) as [c|]; [|discriminate].
  destruct (CInt.shl_one _) as [pow|]; [|discriminate].
  cbv zeta.
  destruct (APInt.ugt (APInt.abs _) 1); [keep_state Hinv|].
  destruct (negb (opc_eqb opc Mul) && APInt.ne_u64 _ 0); [keep_state Hinv|].
  assert (HK : In K (idents F)) by (eapply getInst_ident; eassumption).
  assert (Hv : usable F rm (if isa_ConstantInt a then b else a)).
  { eapply usable_operand; [exact EK|].
    destruct (isa_ConstantInt a); simpl; auto. }
  assert (Hshift : forall opS cl w,
             In w (operands (BinaryOperator opS
                               (if isa_ConstantInt a then b else a)
                               (ConstantInt cl))) ->
             usable F rm w).
  { intros opS cl w [<-|[<-|[]]]; [exact Hv|apply usable_ConstantInt]. }
  pose proof (fresh_not_In F) as Hs.
  destruct (opc_eqb opc Mul && APInt.ne_u64 _ 0).
  - destruct (replaceAllUsesWith _ _ _) as [F3|] eqn:ER; [|discriminate].
    intros [= <- <-].
    match type of ER with
      replaceAllUsesWith (insertAfter ?F1 ?s (?r, ?RI)) _ _ = _ =>
        assert (H1 : scanInv F0 F1 rm)
          by (apply scanInv_insertAfter; [exact Hinv|apply Hshift]);
        assert (Hs1 : In s (idents F1))
          by (apply (In_insertAfter_new F K (s, _)); exact HK);
        assert (H2 : scanInv F0 (insertAfter F1 s (r, RI)) rm)
    end.
    { apply scanInv_insertAfter; [exact H1|].
      intros w [<-|[<-|[]]].
      - apply usable_inserted; [apply Hinv|exact HK|exact Hs].
      - apply usable_insertAfter. exact Hv. }
    eapply scanInv_replace; [exact H2| | |exact ER].
    + do 2 apply idents_insertAfter_old. exact HK.
    + apply usable_inserted; [apply H1|exact Hs1|apply fresh_not_In].
  - destruct (replaceAllUsesWith _ _ _) as [F2|] eqn:ER; [|discriminate].
    intros [= <- <-].
    eapply scanInv_replace; [| | |exact ER].
    + apply scanInv_insertAfter; [exact Hinv|apply Hshift].
    + apply idents_insertAfter_old. exact HK.
    + apply usable_inserted; [apply Hinv|exact HK|exact Hs].
Qed.

Lemma cancelUse_inv (F0 : Function) (K J : ident) (c : APInt.t)
  (st st' : Function * list ident) :
  scanInv F0 (fst st) (snd st) -> cancelUse K c st J = Some st' ->
  scanInv F0 (fst st') (snd st').
Proof.
  unfold cancelUse. intros Hinv.
  destruct (getInst (fst st) J) as [[opJ j0 j1|ops]|] eqn:EJ;
    [|intros [= <-]; exact Hinv|discriminate].
  destruct (negb (checkOperands j0 j1)); [intros [= <-]; exact Hinv|].
  destruct (getInst (fst st) K) as [[opI i0 i1|ops]|] eqn:EK;
    try discriminate.
  destruct (oppositeOps opI opJ); [|intros [= <-]; exact Hinv].
  destruct (dyn_cast_ConstantInt_getValue _) as [d|]; [|discriminate].
  destruct (APInt.eqb c d); [|intros [= <-]; exact Hinv].
  destruct (replaceAllUsesWith _ _ _) as [F1|] eqn:ER; [|discriminate].
  intros [= <-]. simpl.
  eapply scanInv_replace; [exact Hinv| | |exact ER].
  - eapply getInst_ident; eassumption.
  - eapply usable_operand; [exact EK|].
    destruct (isa_Constant i0); simpl; auto.
Qed.

Lemma forEachUse_inv (F0 : Function) (K : ident) (c : APInt.t)
  (us : list ident) :
  forall st st',
    scanInv F0 (fst st) (snd st) -> forEachUse K c us st = Some st' ->
    scanInv F0 (fst st') (snd st').
Proof.
  induction us as [|u us IH]; simpl; intros st st' Hinv.
  - intros [= <-]. exact Hinv.
  - destruct (cancelUse K c st u) as [st1|] eqn:E; [|discriminate].
    apply IH. eapply cancelUse_inv; eassumption.
Qed.

Lemma multiInstructionOptimization_inv (F0 F F' : Function)
  (rm rm' : list ident) (K : ident) :
  scanInv F0 F rm -> multiInstructionOptimization F K rm = Some (F', rm') ->
  scanInv F0 F' rm'.
Proof.
  unfold multiInstructionOptimization. intros Hinv.
  destruct (getInst F K) as [[opc a b|ops]|] eqn:EK;
    [|keep_state Hinv|discriminate].
  destruct (negb (checkOperands a b)); [keep_state Hinv|].
  destruct (dyn_cast_ConstantInt_getValue _) as [c|]; [|discriminate].
  intros H. apply (forEachUse_inv F0 K c _ (F, rm) (F', rm') Hinv H).
Qed.

Lemma visit_inv (F0 F F' : Function) (rm rm' : list ident) (K : ident) :
  scanInv F0 F rm -> visit F K rm = Some (F', rm') -> scanInv F0 F' rm'.
Proof.
  unfold visit. intros Hinv.
  destruct (algebraicIdentity F K) as [[F1 m1]|] eqn:E1; [|discriminate].
  apply (algebraicIdentity_inv F0) with (rm := rm) in E1; [|exact Hinv].
  destruct m1.
  - apply multiInstructionOptimization_inv. exact E1.
  - destruct (strengthReduction F1 K) as [[F2 m2]|] eqn:E2; [|discriminate].
    apply (strengthReduction_inv F0) with (rm := rm) in E2; [|exact E1].
    apply multiInstructionOptimization_inv. exact E2.
Qed.

Lemma scan_inv (F0 : Function) (bi : nat) (fuel : nat) :
  forall F cur rm F1 rm1,
    scanInv F0 F rm -> scan fuel F bi cur rm = Returns (F1, rm1) ->
    scanInv F0 F1 rm1.
Proof.
  induction fuel as [|fuel IH]; intros F cur rm F1 rm1 Hinv;
    destruct cur as [K|]; simpl; try discriminate;
    try (intros [= <- <-]; exact Hinv).
  destruct (visit F K rm) as [[F' rm']|] eqn:EV; [|discriminate].
  apply IH. eapply visit_inv; eassumption.
Qed.

(** ** The erase phase *)

Lemma without_cons (i : ident) (rm : list ident) (F : Function) :
  without rm (eraseFromParent F i) = without (i :: rm) F.
Proof.
  unfold without, eraseFromParent. rewrite map_map. apply map_ext.
  intros B. induction B as [|p B IH]; simpl; [reflexivity|].
  destruct (Nat.eqb (fst p) i); simpl; [exact IH|].
  destruct (existsb (Nat.eqb (fst p)) rm); simpl; [exact IH|].
  f_equal. exact IH.
Qed.

Lemma without_nil (F : Function) : without [] F = F.
Proof.
  unfold without. rewrite <- (map_id F) at 2. apply map_ext.
  intros B. induction B as [|p B IH]; simpl; [reflexivity|].
  f_equal. exact IH.
Qed.

Lemma eraseAll_without (rm : list ident) :
  forall F F', eraseAll F rm = Some F' -> F' = without rm F.
Proof.
  induction rm as [|i rm IH]; simpl; intros F F'.
  - intros [= <-]. symmetry. apply without_nil.
  - destruct (isLive F i); [|discriminate].
    intros H. apply IH in H. rewrite H. apply without_cons.
Qed.

Lemma In_without (rm : list ident) (F : Function) (p : ident * Instruction) :
  In p (instructions (without rm F)) <->
  In p (instructions F) /\ ~ In (fst p) rm.
Proof.
  unfold instructions, without. split.
  - intros H. apply in_concat in H. destruct H as [B' [HB' Hp]].
    apply in_map_iff in HB'. destruct HB' as [B [<- HB]].
    apply filter_In in Hp. destruct Hp as [Hp Hf]. split.
    + apply in_concat. exists B. split; assumption.
    + intros Hin. simpl in Hf. apply negb_true_iff in Hf.
      assert (Ht : existsb (Nat.eqb (fst p)) rm = true).
      { apply existsb_exists. exists (fst p). split; [exact Hin|].
        apply Nat.eqb_refl. }
      exact (eq_true_false_abs _ Ht Hf).
  - intros [H Hn]. apply in_concat in H. destruct H as [B [HB Hp]].
    apply in_concat. eexists. split; [apply in_map; exact HB|].
    apply filter_In. split; [exact Hp|]. simpl. apply negb_true_iff.
    destruct (existsb (Nat.eqb (fst p)) rm) eqn:E; [|exact E].
    apply existsb_exists in E. destruct E as [k [Hk Heq]].
    apply Nat.eqb_eq in Heq. subst k. contradiction.
Qed.

Lemma idents_without (rm : list ident) (F : Function) (k : ident) :
  In k (idents (without rm F)) <-> In k (idents F) /\ ~ In k rm.
Proof.
  unfold idents. split.
  - intros H. apply in_map_iff in H. destruct H as [p [<- Hp]].
    apply In_without in Hp. destruct Hp as [Hp Hn].
    split; [now apply in_map|exact Hn].
  - intros [H Hn]. apply in_map_iff in H. destruct H as [p [<- Hp]].
    apply in_map. apply In_without. split; assumption.
Qed.

Lemma references_without (rm : list ident) (F : Function) (k : ident) :
  references (without rm F) k -> references F k.
Proof.
  unfold references, allOperands. intros H.
  apply in_flat_map in H. destruct H as [p [Hp Hv]].
  apply In_without in Hp. apply in_flat_map. exists p.
  split; [apply Hp|exact Hv].
Qed.

Lemma isLive_In (F : Function) (i : ident) :
  isLive F i = true <-> In i (idents F).
Proof.
  unfold isLive. rewrite existsb_exists. split.
  - intros [k [Hk Heq]]. apply Nat.eqb_eq in Heq. now subst k.
  - intros H. exists i. split; [exact H|apply Nat.eqb_refl].
Qed.

Lemma idents_eraseFromParent (F : Function) (i k : ident) :
  In k (idents (eraseFromParent F i)) -> In k (idents F) /\ k <> i.
Proof.
  intros H. pose proof (without_cons i [] F) as E.
  rewrite without_nil in E. rewrite E in H.
  apply idents_without in H. destruct H as [H Hn].
  split; [exact H|]. intros ->. apply Hn. now left.
Qed.

(** An instruction that is gone cannot be erased again. *)
Lemma eraseAll_gone (rm : list ident) (i : ident) :
  forall F, In i rm -> ~ In i (idents F) -> eraseAll F rm = None.
Proof.
  induction rm as [|j rm IH]; simpl; intros F Hin Hgone; [contradiction|].
  destruct (isLive F j) eqn:E; [|reflexivity].
  destruct Hin as [->|Hin].
  - apply isLive_In in E. contradiction.
  - apply IH; [exact Hin|].
    intros H. apply idents_eraseFromParent in H. apply Hgone, H.
Qed.

Lemma eraseAll_NoDup (rm : list ident) :
  forall F F', eraseAll F rm = Some F' -> NoDup rm.
Proof.
  induction rm as [|i rm IH]; simpl; intros F F' H; [constructor|].
  destruct (isLive F i); [|discriminate].
  constructor; [|eapply IH; exact H].
  intros Hin. rewrite (eraseAll_gone rm i) in H; [discriminate|exact Hin|].
  intros Hi. apply idents_eraseFromParent in Hi. now destruct Hi.
Qed.

(** ** The rules only insert and mark *)

Lemma replaceAllUsesWith_idents (F F' : Function) (old : ident) (new : Value) :
  replaceAllUsesWith F old new = Some F' -> idents F' = idents F.
Proof.
  intros H. apply replaceAllUsesWith_Some in H. destruct H as [_ ->].
  apply idents_redirect.
Qed.

Lemma algebraicIdentity_keeps (F F' : Function) (K : ident) (m : bool) :
  algebraicIdentity F K = Some (F', m) -> idents F' = idents F.
Proof.
  unfold algebraicIdentity.
  destruct (getInst F K) as [[opc a b|ops]|];
    [|now intros [= <- <-]|discriminate].
  destruct (negb (checkOperands a b)); [now intros [= <- <-]|].
  destruct (dyn_cast_ConstantInt_getValue _) as [c|]; [|discriminate].
  match goal with |- context [if ?b then _ else Some (F, false)] =>
    destruct b end; [|now intros [= <- <-]].
  destruct (replaceAllUsesWith _ _ _) as [F1|] eqn:ER; [|discriminate].
  intros [= <- <-]. eapply replaceAllUsesWith_idents. exact ER.
Qed.

Lemma strengthReduction_keeps (F F' : Function) (K : ident) (m : bool) :
  strengthReduction F K = Some (F', m) -> incl (idents F) (idents F').
Proof.
  unfold strengthReduction.
  destruct (getInst F K) as [[opc a b|ops]|];
    [|intros [= <- <-]; apply incl_refl|discriminate].
  destruct (negb (checkOperands a b)); [intros [= <- <-]; apply incl_refl|].
  destruct (negb (opc_eqb opc Mul) && negb (opc_eqb opc SDiv));
    [intros [= <- <-]; apply incl_refl|].
  destruct (dyn_cast_ConstantInt_getValue _) as [c|]; [|discriminate].
  destruct (CInt.shl_one _) as [pow|]; [|discriminate].
  cbv zeta.
  destruct (APInt.ugt (APInt.abs _) 1); [intros [= <- <-]; apply incl_refl|].
  destruct (negb (opc_eqb opc Mul) && APInt.ne_u64 _ 0);
    [intros [= <- <-]; apply incl_refl|].
  destruct (opc_eqb opc Mul && APInt.ne_u64 _ 0);
    (destruct (replaceAllUsesWith _ _ _) as [F3|] eqn:ER; [|discriminate]);
    intros [= <- <-]; apply replaceAllUsesWith_idents in ER; rewrite ER.
  - eapply incl_tran; apply idents_insertAfter_old.
  - apply idents_insertAfter_old.
Qed.

Lemma cancelUse_keeps (K J : ident) (c : APInt.t)
  (st st' : Function * list ident) :
  cancelUse K c st J = Some st' ->
  idents (fst st') = idents (fst st) /\ exists l, snd st' = snd st ++ l.
Proof.
  assert (Hsame : idents (fst st) = idents (fst st)
                  /\ exists l, snd st = snd st ++ l).
  { split; [reflexivity|]. exists []. now rewrite app_nil_r. }
  unfold cancelUse.
  destruct (getInst (fst st) J) as [[opJ j0 j1|ops]|];
    [|intros [= <-]; exact Hsame|discriminate].
  destruct (negb (checkOperands j0 j1)); [intros [= <-]; exact Hsame|].
  destruct (getInst (fst st) K) as [[opI i0 i1|ops]|]; try discriminate.
  destruct (oppositeOps opI opJ); [|intros [= <-]; exact Hsame].
  destruct (dyn_cast_ConstantInt_getValue _) as [d|]; [|discriminate].
  destruct (APInt.eqb c d); [|intros [= <-]; exact Hsame].
  destruct (replaceAllUsesWith _ _ _) as [F1|] eqn:ER; [|discriminate].
  intros [= <-]. simpl. split.
  - eapply replaceAllUsesWith_idents. exact ER.
  - now exists [J].
Qed.

Lemma forEachUse_keeps (K : ident) (c : APInt.t) (us : list ident) :
  forall st st',
    forEachUse K c us st = Some st' ->
    idents (fst st') = idents (fst st) /\ exists l, snd st' = snd st ++ l.
Proof.
  induction us as [|u us IH]; simpl; intros st st'.
  - intros [= <-]. split; [reflexivity|]. exists []. now rewrite app_nil_r.
  - destruct (cancelUse K c st u) as [st1|] eqn:E; [|discriminate].
    intros H. apply IH in H. apply cancelUse_keeps in E.
    destruct H as [H1 [l1 H2]], E as [E1 [l2 E2]]. split; [congruence|].
    exists (l2 ++ l1). rewrite H2, E2. now rewrite app_assoc.
Qed.

Lemma multiInstructionOptimization_keeps (F F' : Function) (K : ident)
  (rm rm' : list ident) :
  multiInstructionOptimization F K rm = Some (F', rm') ->
  idents F' = idents F /\ exists l, rm' = rm ++ l.
Proof.
  assert (Hsame : idents F = idents F /\ exists l, rm = rm ++ l).
  { split; [reflexivity|]. exists []. now rewrite app_nil_r. }
  unfold multiInstructionOptimization.
  destruct (getInst F K) as [[opc a b|ops]|];
    [|intros [= <- <-]; exact Hsame|discriminate].
  destruct (negb (checkOperands a b)); [intros [= <- <-]; exact Hsame|].
  destruct (dyn_cast_ConstantInt_getValue _) as [c|]; [|discriminate].
  intros H. apply forEachUse_keeps in H. exact H.
Qed.

(** A visit erases nothing and only appends to the removal list. *)
Lemma visit_keeps (F F' : Function) (K : ident) (rm rm' : list ident) :
  visit F K rm = Some (F', rm') ->
  incl (idents F) (idents F') /\ exists l, rm' = rm ++ l.
Proof.
  unfold visit.
  destruct (algebraicIdentity F K) as [[F1 m1]|] eqn:E1; [|discriminate].
  apply algebraicIdentity_keeps in E1.
  assert (H2 : forall F2 m2,
             (if m1 then Some (F1, true) else strengthReduction F1 K)
             = Some (F2, m2) -> incl (idents F) (idents F2)).
  { intros F2 m2. destruct m1.
    - intros [= <- <-]. rewrite E1. apply incl_refl.
    - intros H. apply strengthReduction_keeps in H. now rewrite <- E1. }
  destruct (if m1 then Some (F1, true) else strengthReduction F1 K)
    as [[F2 m2]|]; [|discriminate].
  specialize (H2 F2 m2 eq_refl).
  intros H. apply multiInstructionOptimization_keeps in H.
  destruct H as [Hid [l Hl]]. split; [now rewrite Hid|].
  destruct m2; [|now exists l].
  exists ([K] ++ l). now rewrite Hl, app_assoc.
Qed.

(** * The rules in general *)

(** ** The return values of the block rewriter and of the driver *)

Lemma runOnBasicBlock_returns_true (F F' : Function) (bi : nat) (b : bool) :
  runOnBasicBlock F bi = Returns (F', b) -> b = true.
Proof.
  unfold runOnBasicBlock.
  destruct (scan _ F bi _ []) as [[F1 rm]| |]; try discriminate.
  destruct (eraseAll F1 rm); [|discriminate].
  now intros [= _ <-].
Qed.

Lemma runOnBlocks_true (n : nat) :
  forall bi F F' b, runOnBlocks n bi F true = Returns (F', b) -> b = true.
Proof.
  induction n as [|n IH]; simpl; intros bi F F' b.
  - now intros [= _ <-].
  - destruct (runOnBasicBlock F bi) as [[F1 b1]| |]; try discriminate.
    destruct b1; apply IH.
Qed.

(** A function with a block is always reported as transformed. *)
Lemma runOnFunction_returns_true (F F' : Function) (b : bool) :
  F <> [] -> runOnFunction F = Returns (F', b) -> b = true.
Proof.
  unfold runOnFunction. destruct F as [|B F]; [congruence|]. intros _. simpl.
  destruct (runOnBasicBlock (B :: F) 0) as [[F1 b1]| |] eqn:E;
    try discriminate.
  apply runOnBasicBlock_returns_true in E. subst b1. apply runOnBlocks_true.
Qed.

(** [run] hands back the functions after the first one with a block as they
    were. *)
Lemma run_returns_at_first_function (F F' : Function) (b : bool)
  (rest : list Function) :
  F <> [] -> runOnFunction F = Returns (F', b) ->
  run (F :: rest) = Returns (F' :: rest, PA_none).
Proof.
  intros HF H. unfold run. simpl. rewrite H.
  apply runOnFunction_returns_true in H; [|exact HF]. now subst b.
Qed.

(** ** The correction instruction of strength reduction *)

(** A remainder that is not 0 is always above 0 for [ugt]: the choice
    between [Add] and [Sub] always takes [Add]. *)
Lemma correction_always_Add (c : APInt.t) (rhs : Z) :
  (0 <= APInt.BitWidth c)%Z ->
  APInt.ne_u64 (APInt.sub_u64 c rhs) 0 = true ->
  (if APInt.ugt (APInt.sub_u64 c rhs) 0 then Add else Sub) = Add.
Proof.
  unfold APInt.ne_u64, APInt.eq_u64, APInt.ugt, APInt.sub_u64,
    APInt.clearUnusedBits. simpl. intros Hw H.
  apply negb_true_iff, Z.eqb_neq in H.
  assert (0 < 2 ^ APInt.BitWidth c)%Z by (apply Z.pow_pos_nonneg; lia).
  pose proof (Z.mod_pos_bound (APInt.VAL c - rhs) (2 ^ APInt.BitWidth c)).
  destruct (0 <? _)%Z eqn:E; [reflexivity|].
  apply Z.ltb_ge in E. lia.
Qed.

(** ** The algebraic identity rule on a constant and a variable *)

Lemma isa_Constant_ConstantInt (v : Value) :
  isa_Constant v = false -> isa_ConstantInt v = false.
Proof. destruct v; simpl; congruence. Qed.

Lemma identityPair_test (opc : BinaryOps) (c : APInt.t) :
  (opc_eqb opc Add && APInt.eq_u64 c 0)
  || (opc_eqb opc Sub && APInt.eq_u64 c 0)
  || (opc_eqb opc Mul && APInt.eq_u64 c 1)
  || (opc_eqb opc SDiv && APInt.eq_u64 c 1)
  = identityPair opc c.
Proof.
  destruct opc; simpl;
    destruct (APInt.eq_u64 c 0), (APInt.eq_u64 c 1); reflexivity.
Qed.

(** X6 -- When the operand that is not the integer constant is no
    [Constant] at all, the rule fires exactly on the four pairs and
    redirects to that operand, in either slot: [sub 0, %x] and [sdiv 1, %x]
    are forwarded to [%x] like [sub %x, 0] and [sdiv %x, 1]. *)
Lemma algebraicIdentity_on_variable (F : Function) (K : ident)
  (opc : BinaryOps) (a b v : Value) (c : APInt.t) :
  getInst F K = Some (BinaryOperator opc a b) ->
  (a = ConstantInt c /\ b = v) \/ (a = v /\ b = ConstantInt c) ->
  isa_Constant v = false ->
  v <> InstResult K ->
  algebraicIdentity F K
  = if identityPair opc c then Some (redirect K v F, true)
    else Some (F, false).
Proof.
  intros HK Hab Hv Hself. unfold algebraicIdentity. rewrite HK.
  pose proof (isa_Constant_ConstantInt v Hv) as Hv'.
  assert (HR : replaceAllUsesWith F K v = Some (redirect K v F)).
  { unfold replaceAllUsesWith.
    destruct (Value_eq_dec v (InstResult K)); [contradiction|reflexivity]. }
  destruct Hab as [[-> ->]|[-> ->]]; unfold checkOperands; simpl;
    rewrite ?Hv, ?Hv'; simpl; rewrite identityPair_test;
    destruct (identityPair opc c); rewrite ?HR; reflexivity.
Qed.

(** ** One consumer in the cancellation rule *)

Lemma In_uses (F : Function) (I J : ident) :
  In J (uses F I) <->
  exists inst, In (J, inst) (instructions F)
               /\ In (InstResult I) (operands inst).
Proof.
  unfold uses, usesIn. rewrite in_flat_map. split.
  - intros [[j inst] [Hin HJ]]. simpl in HJ.
    apply in_map_iff in HJ. destruct HJ as [v [<- Hv]].
    apply filter_In in Hv. destruct Hv as [Hv Heq].
    destruct (Value_eq_dec v (InstResult I)) as [->|]; [|discriminate].
    exists inst. split; assumption.
  - intros [inst [Hin Hv]]. exists (J, inst). split; [exact Hin|]. simpl.
    apply in_map_iff. exists (InstResult I). split; [reflexivity|].
    apply filter_In. split; [exact Hv|].
    destruct (Value_eq_dec (InstResult I) (InstResult I)); congruence.
Qed.

(** The consumer has its constant in the slot where the producer has no
    constant: the rule dereferences a null pointer. *)
Lemma cancelUse_other_slot (F : Function) (rm : list ident) (I J : ident)
  (opI opJ : BinaryOps) (i0 i1 j0 j1 : Value) (c0 : APInt.t) :
  getInst F I = Some (BinaryOperator opI i0 i1) ->
  getInst F J = Some (BinaryOperator opJ j0 j1) ->
  checkOperands j0 j1 = true ->
  oppositeOps opI opJ = true ->
  isa_Constant i0 = negb (isa_ConstantInt j0) ->
  cancelUse I c0 (F, rm) J = None.
Proof.
  intros HI HJ Hmixed Hopp Hslot. unfold cancelUse. simpl.
  rewrite HJ, Hmixed, HI, Hopp, Hslot. simpl.
  unfold checkOperands in Hmixed.
  destruct j0, j1; simpl in *; try discriminate; reflexivity.
Qed.

(** Both constants are in the same slot: the uses of the consumer go to the
    other operand of the producer and the consumer is marked if the
    constants are equal, and nothing happens if they differ. *)
Lemma cancelUse_same_slot (F : Function) (rm : list ident) (I J : ident)
  (opI opJ : BinaryOps) (i0 i1 j0 j1 : Value) (c0 cJ : APInt.t) :
  getInst F I = Some (BinaryOperator opI i0 i1) ->
  getInst F J = Some (BinaryOperator opJ j0 j1) ->
  checkOperands j0 j1 = true ->
  oppositeOps opI opJ = true ->
  isa_Constant i0 = isa_ConstantInt j0 ->
  dyn_cast_ConstantInt_getValue (if isa_ConstantInt j0 then j0 else j1)
  = Some cJ ->
  cancelUse I c0 (F, rm) J
  = if APInt.eqb c0 cJ
    then match replaceAllUsesWith F J (if isa_Constant i0 then i1 else i0) with
         | Some F' => Some (F', rm ++ [J])
         | None => None
         end
    else Some (F, rm).
Proof.
  intros HI HJ Hmixed Hopp Hslot HcJ. unfold cancelUse. simpl.
  rewrite HJ, Hmixed, HI, Hopp, Hslot, HcJ. simpl. reflexivity.
Qed.

(** A producer with a single use: the rule is one turn of the loop. *)
Lemma multiInstructionOptimization_single_use (F : Function)
  (rm : list ident) (I J : ident) (opI : BinaryOps) (i0 i1 : Value)
  (c0 : APInt.t) :
  getInst F I = Some (BinaryOperator opI i0 i1) ->
  checkOperands i0 i1 = true ->
  dyn_cast_ConstantInt_getValue (if isa_Constant i0 then i0 else i1)
  = Some c0 ->
  uses F I = [J] ->
  multiInstructionOptimization F I rm = cancelUse I c0 (F, rm) J.
Proof.
  intros HI Hmixed Hc0 Huses. unfold multiInstructionOptimization.
  rewrite HI, Hmixed, Hc0, Huses. simpl.
  now destruct (cancelUse I c0 (F, rm) J).
Qed.

(** ** A block on which no rule fires *)

Lemma scan_done (fuel : nat) (F : Function) (bi : nat) (rm : list ident) :
  scan fuel F bi None rm = Returns (F, rm).
Proof. destruct fuel; reflexivity. Qed.

Lemma getNextNode_split {A : Type} (pre post : list (ident * A))
  (p : ident * A) :
  ~ In (fst p) (map fst pre) ->
  getNextNode (pre ++ p :: post) (fst p) = front post.
Proof.
  induction pre as [|q pre IH]; simpl; intros H.
  - now rewrite Nat.eqb_refl.
  - destruct (Nat.eqb (fst q) (fst p)) eqn:E.
    + apply Nat.eqb_eq in E. exfalso. apply H. now left.
    + apply IH. intros Hin. apply H. now right.
Qed.

Lemma NoDup_split_fst {A : Type} (pre post : list (ident * A))
  (p : ident * A) :
  NoDup (map fst (pre ++ p :: post)) -> ~ In (fst p) (map fst pre).
Proof.
  rewrite map_app. simpl. intros H Hin.
  apply NoDup_remove_2 in H. apply H, in_or_app. now left.
Qed.

Lemma scan_fullyReduced (F : Function) (bi : nat) :
  fullyReduced F bi -> NoDup (map fst (getBlock F bi)) ->
  forall post pre p fuel rm,
    getBlock F bi = pre ++ p :: post -> length post < fuel ->
    scan fuel F bi (Some (fst p)) rm = Returns (F, rm).
Proof.
  intros HR Hnd.
  assert (Hstep : forall post pre p fuel rm,
             getBlock F bi = pre ++ p :: post ->
             scan (S fuel) F bi (Some (fst p)) rm
             = scan fuel F bi (front post) rm).
  { intros post pre p fuel rm HB. simpl. rewrite (HR (fst p)).
    - rewrite HB. rewrite getNextNode_split; [reflexivity|].
      apply (NoDup_split_fst pre post p). now rewrite <- HB.
    - rewrite HB, map_app. apply in_or_app. right. now left. }
  induction post as [|q post IH]; intros pre p fuel rm HB Hfuel;
    (destruct fuel as [|fuel]; [lia|]); rewrite (Hstep _ _ _ _ _ HB).
  - apply scan_done.
  - simpl. apply (IH (pre ++ [p])); [|simpl in Hfuel; lia].
    now rewrite <- app_assoc.
Qed.

(** On a block on which no rule fires the block rewriter changes nothing and
    answers [true]. *)
Lemma runOnBasicBlock_fullyReduced (F : Function) (bi : nat) :
  NoDup (map fst (getBlock F bi)) -> fullyReduced F bi ->
  scan (scanFuel F bi) F bi (front (getBlock F bi)) [] = Returns (F, [])
  /\ runOnBasicBlock F bi = Returns (F, true).
Proof.
  intros Hnd HR.
  assert (HS : scan (scanFuel F bi) F bi (front (getBlock F bi)) []
               = Returns (F, [])).
  { pose proof (scan_fullyReduced F bi HR Hnd) as Hscan.
    unfold scanFuel. destruct (getBlock F bi) as [|p post] eqn:HB.
    - apply scan_done.
    - simpl front. apply (Hscan post [] p); [reflexivity|simpl; lia]. }
  split; [exact HS|]. unfold runOnBasicBlock. rewrite HS. reflexivity.
Qed.

(** ** Handles are unique *)

Lemma In_getBlock (F : Function) (bi : nat) (p : ident * Instruction) :
  In p (getBlock F bi) -> In p (instructions F).
Proof.
  unfold getBlock, instructions. intros H.
  destruct (Nat.lt_ge_cases bi (length F)) as [Hlt|Hge].
  - apply in_concat. exists (nth bi F []). split; [now apply nth_In|exact H].
  - rewrite nth_overflow in H by exact Hge. contradiction.
Qed.

Lemma NoDup_block (F : Function) (B : BasicBlock) :
  NoDup (idents F) -> In B F -> NoDup (map fst B).
Proof.
  unfold idents, instructions.
  induction F as [|B' F IH]; simpl; intros Hnd HB; [contradiction|].
  rewrite map_app in Hnd. destruct HB as [->|HB].
  - eapply NoDup_app_remove_r. exact Hnd.
  - apply IH; [|exact HB]. eapply NoDup_app_remove_l. exact Hnd.
Qed.

Lemma NoDup_getBlock (F : Function) (bi : nat) :
  NoDup (idents F) -> NoDup (map fst (getBlock F bi)).
Proof.
  intros Hnd. unfold getBlock.
  destruct (Nat.lt_ge_cases bi (length F)) as [Hlt|Hge].
  - apply (NoDup_block F); [exact Hnd|now apply nth_In].
  - rewrite nth_overflow by exact Hge. constructor.
Qed.

Lemma NoDup_fst_unique {A : Type} (l : list (ident * A)) (k : ident)
  (a b : A) :
  NoDup (map fst l) -> In (k, a) l -> In (k, b) l -> a = b.
Proof.
  induction l as [|p l IH]; simpl; intros Hnd Ha Hb; [contradiction|].
  inversion Hnd as [|x l' Hnotin Hnd']; subst.
  destruct Ha as [->|Ha], Hb as [Hb|Hb].
  - congruence.
  - exfalso. apply Hnotin. simpl. change k with (fst (k, b)). now apply in_map.
  - exfalso. apply Hnotin. subst p. simpl.
    change k with (fst (k, a)). now apply in_map.
  - now apply IH.
Qed.

Lemma getInst_unique (F : Function) (K : ident) (I I' : Instruction) :
  NoDup (idents F) -> getInst F K = Some I -> In (K, I') (instructions F) ->
  I' = I.
Proof.
  intros Hnd HI HI'. apply getInst_In in HI.
  exact (NoDup_fst_unique _ K I' I Hnd HI' HI).
Qed.

(** *** Layout of a block under the two primitives *)

Lemma skeleton_idents (B : BasicBlock) : map fst (skeleton B) = map fst B.
Proof. unfold skeleton. rewrite map_map. reflexivity. Qed.

Lemma getNextNode_skeleton (B : BasicBlock) (k : ident) :
  getNextNode (skeleton B) k = getNextNode B k.
Proof.
  induction B as [|p B IH]; simpl; [reflexivity|].
  destruct (Nat.eqb (fst p) k); [|exact IH]. now destruct B.
Qed.

Lemma weight_replaceInInst (old : ident) (new : Value) (I : Instruction) :
  weight (replaceInInst old new I) = weight I.
Proof. destruct I as [[] a b|ops]; reflexivity. Qed.

Lemma getBlock_redirect (old : ident) (new : Value) (F : Function) (bi : nat) :
  getBlock (redirect old new F) bi
  = map (fun p => (fst p, replaceInInst old new (snd p))) (getBlock F bi).
Proof.
  unfold getBlock, redirect.
  exact (map_nth (map (fun p => (fst p, replaceInInst old new (snd p))))
                 F [] bi).
Qed.

Lemma skeleton_redirect (old : ident) (new : Value) (F : Function) (bi : nat) :
  skeleton (getBlock (redirect old new F) bi) = skeleton (getBlock F bi).
Proof.
  rewrite getBlock_redirect. unfold skeleton. rewrite map_map.
  apply map_ext. intros p. simpl. now rewrite weight_replaceInInst.
Qed.

Lemma getBlock_insertAfter (F : Function) (a : ident)
  (n : ident * Instruction) (bi : nat) :
  getBlock (insertAfter F a n) bi = insertAfterInBlock a n (getBlock F bi).
Proof.
  unfold getBlock, insertAfter.
  exact (map_nth (insertAfterInBlock a n) F [] bi).
Qed.

Lemma skeleton_insertAfterInBlock (a : ident) (n : ident * Instruction)
  (B : BasicBlock) :
  skeleton (insertAfterInBlock a n B)
  = insertAfterInBlock a (fst n, weight (snd n)) (skeleton B).
Proof.
  induction B as [|p B IH]; simpl; [reflexivity|].
  destruct (Nat.eqb (fst p) a); simpl; [reflexivity|]. now rewrite IH.
Qed.

Lemma insertAfterInBlock_split {A : Type} (pre post : list (ident * A))
  (p n : ident * A) :
  ~ In (fst p) (map fst pre) ->
  insertAfterInBlock (fst p) n (pre ++ p :: post) = pre ++ p :: n :: post.
Proof.
  induction pre as [|q pre IH]; simpl; intros H.
  - now rewrite Nat.eqb_refl.
  - destruct (Nat.eqb (fst q) (fst p)) eqn:E.
    + apply Nat.eqb_eq in E. exfalso. apply H. now left.
    + f_equal. apply IH. intros Hin. apply H. now right.
Qed.

Lemma insertAfterInBlock_absent {A : Type} (a : ident) (n : ident * A)
  (B : list (ident * A)) :
  ~ In a (map fst B) -> insertAfterInBlock a n B = B.
Proof.
  induction B as [|p B IH]; simpl; intros H; [reflexivity|].
  destruct (Nat.eqb (fst p) a) eqn:E.
  - apply Nat.eqb_eq in E. exfalso. apply H. now left.
  - f_equal. apply IH. intros Hin. apply H. now right.
Qed.

Lemma insertAfter_absent (F : Function) (a : ident) (n : ident * Instruction) :
  ~ In a (idents F) -> insertAfter F a n = F.
Proof.
  unfold idents, instructions, insertAfter.
  induction F as [|B F IH]; simpl; intros H; [reflexivity|].
  rewrite map_app in H. f_equal.
  - apply insertAfterInBlock_absent. intros Hin. apply H, in_or_app. now left.
  - apply IH. intros Hin. apply H, in_or_app. now right.
Qed.

Lemma NoDup_insertAfterInBlock {A : Type} (a : ident) (n : ident * A)
  (B : list (ident * A)) :
  NoDup (map fst B) -> ~ In (fst n) (map fst B) ->
  NoDup (map fst (insertAfterInBlock a n B)).
Proof.
  induction B as [|p B IH]; simpl; intros Hnd Hn; [constructor|].
  inversion Hnd as [|x l Hp Hnd']; subst.
  destruct (Nat.eqb (fst p) a); simpl.
  - constructor.
    + simpl. intros [E|Hin]; [apply Hn; now left|contradiction].
    + constructor; [|exact Hnd']. intros Hin. apply Hn. now right.
  - constructor.
    + intros Hin. apply in_map_iff in Hin. destruct Hin as [q [Hq Hin]].
      apply In_insertAfterInBlock in Hin. destruct Hin as [Hin| ->].
      * apply Hp. rewrite <- Hq. now apply in_map.
      * apply Hn. left. congruence.
    + apply IH; [exact Hnd'|]. intros Hin. apply Hn. now right.
Qed.

Lemma NoDup_app_disjoint {A : Type} (l1 l2 : list A) (a : A) :
  NoDup (l1 ++ l2) -> In a l1 -> ~ In a l2.
Proof.
  induction l1 as [|x l1 IH]; simpl; intros Hnd Hin Hin2; [contradiction|].
  inversion Hnd as [|y l Hx Hnd']; subst. destruct Hin as [->|Hin].
  - apply Hx, in_or_app. now right.
  - exact (IH Hnd' Hin Hin2).
Qed.

Lemma NoDup_insertAfter (F : Function) (a : ident) (n : ident * Instruction) :
  NoDup (idents F) -> ~ In (fst n) (idents F) ->
  NoDup (idents (insertAfter F a n)).
Proof.
  unfold idents, instructions, insertAfter.
  induction F as [|B F IH]; simpl; intros Hnd Hn; [constructor|].
  rewrite map_app in *.
  destruct (in_dec Nat.eq_dec a (map fst B)) as [Ha|Ha].
  - change (map (insertAfterInBlock a n) F) with (insertAfter F a n).
    rewrite insertAfter_absent.
    + apply NoDup_app.
      * apply NoDup_insertAfterInBlock;
          [eapply NoDup_app_remove_r; exact Hnd|].
        intros Hin. apply Hn, in_or_app. now left.
      * eapply NoDup_app_remove_l. exact Hnd.
      * intros k Hk Hk'. apply in_map_iff in Hk. destruct Hk as [q [Hq Hin]].
        apply In_insertAfterInBlock in Hin. destruct Hin as [Hin| ->].
        -- revert Hk'. apply (NoDup_app_disjoint _ _ _ Hnd).
           rewrite <- Hq. now apply in_map.
        -- apply Hn, in_or_app. right. now rewrite Hq.
    + unfold idents, instructions.
      now apply (NoDup_app_disjoint _ _ _ Hnd).
  - rewrite insertAfterInBlock_absent by exact Ha.
    apply NoDup_app.
    + eapply NoDup_app_remove_r. exact Hnd.
    + apply IH; [eapply NoDup_app_remove_l; exact Hnd|].
      intros Hin. apply Hn, in_or_app. now right.
    + intros k Hk Hk'.
      change (map fst (concat (map (insertAfterInBlock a n) F)))
        with (idents (insertAfter F a n)) in Hk'.
      apply idents_insertAfter in Hk'. destruct Hk' as [Hk'| ->].
      * revert Hk'. now apply (NoDup_app_disjoint _ _ _ Hnd).
      * apply Hn, in_or_app. now left.
Qed.

Lemma insertAfter_layout (F : Function) (a : ident) (n : ident * Instruction)
  (bi : nat) (spre spost : list (ident * nat)) (wa : nat) :
  skeleton (getBlock F bi) = spre ++ (a, wa) :: spost ->
  ~ In a (map fst spre) ->
  skeleton (getBlock (insertAfter F a n) bi)
  = spre ++ (a, wa) :: (fst n, weight (snd n)) :: spost.
Proof.
  intros H Ha. rewrite getBlock_insertAfter, skeleton_insertAfterInBlock, H.
  exact (insertAfterInBlock_split spre spost (a, wa) _ Ha).
Qed.

Lemma insertAfter_twice_layout (F : Function) (K s r : ident)
  (S R : Instruction) (bi : nat) (spre spost : list (ident * nat))
  (wK : nat) :
  skeleton (getBlock F bi) = spre ++ (K, wK) :: spost ->
  ~ In K (map fst spre) ->
  ~ In s (map fst (spre ++ [(K, wK)])) ->
  skeleton (getBlock (insertAfter (insertAfter F K (s, S)) s (r, R)) bi)
  = spre ++ (K, wK) :: [(s, weight S); (r, weight R)] ++ spost.
Proof.
  intros Hsk HK Hs.
  pose proof (insertAfter_layout F K (s, S) bi spre spost wK Hsk HK) as H1.
  simpl in H1.
  change (spre ++ (K, wK) :: (s, weight S) :: spost)
    with (spre ++ [(K, wK)] ++ (s, weight S) :: spost) in H1.
  rewrite app_assoc in H1.
  rewrite (insertAfter_layout _ s (r, R) bi _ _ _ H1 Hs).
  rewrite <- app_assoc. reflexivity.
Qed.

Lemma sameLayout_refl (F : Function) : sameLayout F F.
Proof. split; reflexivity. Qed.

Lemma sameLayout_trans (F G H : Function) :
  sameLayout F G -> sameLayout G H -> sameLayout F H.
Proof.
  intros [I1 S1] [I2 S2]. split; [congruence|].
  intros bi. now rewrite S2, S1.
Qed.

Lemma replaceAllUsesWith_sameLayout (F F' : Function) (old : ident)
  (new : Value) :
  replaceAllUsesWith F old new = Some F' -> sameLayout F F'.
Proof.
  intros H. apply replaceAllUsesWith_Some in H. destruct H as [_ ->]. split.
  - apply idents_redirect.
  - intros bi. apply skeleton_redirect.
Qed.

Lemma algebraicIdentity_sameLayout (F F' : Function) (K : ident) (m : bool) :
  algebraicIdentity F K = Some (F', m) -> sameLayout F F'.
Proof.
  unfold algebraicIdentity.
  destruct (getInst F K) as [[opc a b|ops]|];
    [|intros [= <- <-]; apply sameLayout_refl|discriminate].
  destruct (negb (checkOperands a b));
    [intros [= <- <-]; apply sameLayout_refl|].
  destruct (dyn_cast_ConstantInt_getValue _) as [c|]; [|discriminate].
  match goal with |- context [if ?b then _ else Some (F, false)] =>
    destruct b end; [|intros [= <- <-]; apply sameLayout_refl].
  destruct (replaceAllUsesWith _ _ _) as [F1|] eqn:ER; [|discriminate].
  intros [= <- <-]. eapply replaceAllUsesWith_sameLayout. exact ER.
Qed.

Lemma cancelUse_sameLayout (K J : ident) (c : APInt.t)
  (st st' : Function * list ident) :
  cancelUse K c st J = Some st' -> sameLayout (fst st) (fst st').
Proof.
  unfold cancelUse.
  destruct (getInst (fst st) J) as [[opJ j0 j1|ops]|];
    [|intros [= <-]; apply sameLayout_refl|discriminate].
  destruct (negb (checkOperands j0 j1));
    [intros [= <-]; apply sameLayout_refl|].
  destruct (getInst (fst st) K) as [[opI i0 i1|ops]|]; try discriminate.
  destruct (oppositeOps opI opJ); [|intros [= <-]; apply sameLayout_refl].
  destruct (dyn_cast_ConstantInt_getValue _) as [d|]; [|discriminate].
  destruct (APInt.eqb c d); [|intros [= <-]; apply sameLayout_refl].
  destruct (replaceAllUsesWith _ _ _) as [F1|] eqn:ER; [|discriminate].
  intros [= <-]. simpl. eapply replaceAllUsesWith_sameLayout. exact ER.
Qed.

Lemma forEachUse_sameLayout (K : ident) (c : APInt.t) (us : list ident) :
  forall st st',
    forEachUse K c us st = Some st' -> sameLayout (fst st) (fst st').
Proof.
  induction us as [|u us IH]; simpl; intros st st'.
  - intros [= <-]. apply sameLayout_refl.
  - destruct (cancelUse K c st u) as [st1|] eqn:E; [|discriminate].
    intros H. eapply sameLayout_trans.
    + eapply cancelUse_sameLayout. exact E.
    + apply IH. exact H.
Qed.

Lemma multiInstructionOptimization_sameLayout (F F' : Function) (K : ident)
  (rm rm' : list ident) :
  multiInstructionOptimization F K rm = Some (F', rm') -> sameLayout F F'.
Proof.
  unfold multiInstructionOptimization.
  destruct (getInst F K) as [[opc a b|ops]|];
    [|intros [= <- <-]; apply sameLayout_refl|discriminate].
  destruct (negb (checkOperands a b));
    [intros [= <- <-]; apply sameLayout_refl|].
  destruct (dyn_cast_ConstantInt_getValue _) as [c|]; [|discriminate].
  intros H. apply forEachUse_sameLayout in H. exact H.
Qed.

Lemma skeleton_weight_pos (B : BasicBlock) (k w : nat) :
  In (k, w) (skeleton B) -> 0 < w.
Proof.
  unfold skeleton. intros H. apply in_map_iff in H.
  destruct H as [[j I] [[= _ <-] _]]. simpl.
  destruct I as [[] a b|ops]; simpl; lia.
Qed.

Lemma skeleton_weight (F : Function) (bi : nat) (K : ident) (I : Instruction)
  (spre spost : list (ident * nat)) (wK : nat) :
  NoDup (idents F) -> getInst F K = Some I ->
  skeleton (getBlock F bi) = spre ++ (K, wK) :: spost ->
  wK = weight I.
Proof.
  intros Hnd HI Hsk.
  assert (Hin : In (K, wK) (skeleton (getBlock F bi))).
  { rewrite Hsk. apply in_or_app. right. now left. }
  unfold skeleton in Hin. apply in_map_iff in Hin.
  destruct Hin as [[j I'] [[= -> <-] Hin]]. simpl.
  apply (In_getBlock F bi) in Hin.
  now rewrite (getInst_unique F K I I' Hnd HI Hin).
Qed.

Lemma skeleton_cursor_fresh (F : Function) (bi : nat) (K : ident)
  (spre spost : list (ident * nat)) (wK : nat) :
  NoDup (idents F) ->
  skeleton (getBlock F bi) = spre ++ (K, wK) :: spost ->
  ~ In K (map fst spre)
  /\ forall k, In k (map fst (spre ++ [(K, wK)])) -> In k (idents F).
Proof.
  intros Hnd Hsk. split.
  - apply (NoDup_split_fst spre spost (K, wK)).
    rewrite <- Hsk, skeleton_idents. now apply NoDup_getBlock.
  - intros k Hk.
    assert (Hin : In k (map fst (skeleton (getBlock F bi)))).
    { rewrite Hsk, map_app. rewrite map_app in Hk.
      apply in_app_or in Hk. apply in_or_app.
      destruct Hk as [Hk|[<-|[]]]; [now left|right; now left]. }
    rewrite skeleton_idents in Hin. apply in_map_iff in Hin.
    destruct Hin as [p [<- Hp]]. apply in_map.
    now apply (In_getBlock F bi).
Qed.

Lemma strengthReduction_NoDup (F F' : Function) (K : ident) (m : bool) :
  strengthReduction F K = Some (F', m) -> NoDup (idents F) ->
  NoDup (idents F').
Proof.
  unfold strengthReduction. intros H Hnd. revert H.
  destruct (getInst F K) as [[opc a b|ops]|];
    [|now intros [= <- <-]|discriminate].
  destruct (negb (checkOperands a b)); [now intros [= <- <-]|].
  destruct (negb (opc_eqb opc Mul) && negb (opc_eqb opc SDiv));
    [now intros [= <- <-]|].
  destruct (dyn_cast_ConstantInt_getValue _) as [c|]; [|discriminate].
  destruct (CInt.shl_one _) as [pow|]; [|discriminate].
  cbv zeta.
  destruct (APInt.ugt (APInt.abs _) 1); [now intros [= <- <-]|].
  destruct (negb (opc_eqb opc Mul) && APInt.ne_u64 _ 0);
    [now intros [= <- <-]|].
  destruct (opc_eqb opc Mul && APInt.ne_u64 _ 0);
    (destruct (replaceAllUsesWith _ _ _) as [F3|] eqn:ER; [|discriminate]);
    intros [= <- <-]; apply replaceAllUsesWith_idents in ER; rewrite ER.
  - apply NoDup_insertAfter; [|apply fresh_not_In].
    apply NoDup_insertAfter; [exact Hnd|apply fresh_not_In].
  - apply NoDup_insertAfter; [exact Hnd|apply fresh_not_In].
Qed.

(** What strength reduction inserts after the visited instruction weighs
    less than the instruction. *)
Lemma strengthReduction_layout (F F' : Function) (K : ident) (m : bool)
  (bi : nat) (spre spost : list (ident * nat)) (wK : nat) :
  strengthReduction F K = Some (F', m) -> NoDup (idents F) ->
  skeleton (getBlock F bi) = spre ++ (K, wK) :: spost ->
  exists snew,
    skeleton (getBlock F' bi) = spre ++ (K, wK) :: snew ++ spost
    /\ totalWeight snew < wK.
Proof.
  intros H Hnd Hsk.
  assert (Hpos : 0 < wK).
  { apply (skeleton_weight_pos (getBlock F bi) K). rewrite Hsk.
    apply in_or_app. right. now left. }
  assert (Hsame : exists snew,
             skeleton (getBlock F bi) = spre ++ (K, wK) :: snew ++ spost
             /\ totalWeight snew < wK).
  { exists []. split; [exact Hsk|exact Hpos]. }
  destruct (skeleton_cursor_fresh F bi K spre spost wK Hnd Hsk)
    as [HKpre Hids].
  revert H. unfold strengthReduction.
  destruct (getInst F K) as [[opc a b|ops]|] eqn:EK;
    [|now intros [= <- <-]|discriminate].
  pose proof (skeleton_weight F bi K _ spre spost wK Hnd EK Hsk) as HwK.
  destruct (negb (checkOperands a b)); [now intros [= <- <-]|].
  destruct (negb (opc_eqb opc Mul) && negb (opc_eqb opc SDiv)) eqn:Eop;
    [now intros [= <- <-]|].
  assert (Hw3 : wK = 3).
  { rewrite HwK. destruct opc; simpl in *; try discriminate; reflexivity. }
  destruct (dyn_cast_ConstantInt_getValue _) as [c|]; [|discriminate].
  destruct (CInt.shl_one _) as [pow|]; [|discriminate].
  cbv zeta.
  destruct (APInt.ugt (APInt.abs _) 1); [now intros [= <- <-]|].
  destruct (negb (opc_eqb opc Mul) && APInt.ne_u64 _ 0);
    [now intros [= <- <-]|].
  assert (Hs : ~ In (fresh F) (map fst (spre ++ [(K, wK)]))).
  { intros Hin. apply (fresh_not_In F). now apply Hids. }
  assert (Hshift : forall v cl,
             weight (BinaryOperator
                       (if opc_eqb opc Mul then Shl else AShr) v cl) = 1).
  { intros v cl. now destruct (opc_eqb opc Mul). }
  destruct (opc_eqb opc Mul && APInt.ne_u64 _ 0);
    (destruct (replaceAllUsesWith _ _ _) as [F3|] eqn:ER; [|discriminate]);
    intros [= <- <-]; apply replaceAllUsesWith_sameLayout in ER;
    destruct ER as [_ ER]; rewrite ER.
  - rewrite (insertAfter_twice_layout F K _ _ _ _ bi spre spost wK
               Hsk HKpre Hs).
    eexists. split; [reflexivity|].
    unfold totalWeight. cbn [map snd list_sum]. rewrite Hshift.
    destruct (APInt.ugt _ 0); simpl; lia.
  - rewrite (insertAfter_layout F K _ bi spre spost wK Hsk HKpre).
    exists [(fresh F, 1)]. split.
    + cbn [fst snd]. rewrite Hshift. reflexivity.
    + unfold totalWeight. cbn. lia.
Qed.

Lemma visit_NoDup (F F' : Function) (K : ident) (rm rm' : list ident) :
  visit F K rm = Some (F', rm') -> NoDup (idents F) -> NoDup (idents F').
Proof.
  unfold visit. intros H Hnd. revert H.
  destruct (algebraicIdentity F K) as [[F1 m1]|] eqn:E1; [|discriminate].
  apply algebraicIdentity_sameLayout in E1. destruct E1 as [E1 _].
  rewrite <- E1 in Hnd.
  assert (H2 : forall F2 m2,
             (if m1 then Some (F1, true) else strengthReduction F1 K)
             = Some (F2, m2) -> NoDup (idents F2)).
  { intros F2 m2. destruct m1.
    - now intros [= <- <-].
    - intros H. eapply strengthReduction_NoDup; eassumption. }
  destruct (if m1 then Some (F1, true) else strengthReduction F1 K)
    as [[F2 m2]|]; [|discriminate].
  specialize (H2 F2 m2 eq_refl).
  intros H. apply multiInstructionOptimization_sameLayout in H.
  destruct H as [H _]. now rewrite H.
Qed.

(** After a visit the block is what it was, with the instructions inserted
    just behind the visited one; they weigh less than it. *)
Lemma visit_layout (F F' : Function) (K : ident) (rm rm' : list ident)
  (bi : nat) (spre spost : list (ident * nat)) (wK : nat) :
  visit F K rm = Some (F', rm') -> NoDup (idents F) ->
  skeleton (getBlock F bi) = spre ++ (K, wK) :: spost ->
  exists snew,
    skeleton (getBlock F' bi) = spre ++ (K, wK) :: snew ++ spost
    /\ totalWeight snew < wK.
Proof.
  unfold visit. intros H Hnd Hsk. revert H.
  destruct (algebraicIdentity F K) as [[F1 m1]|] eqn:E1; [|discriminate].
  apply algebraicIdentity_sameLayout in E1. destruct E1 as [E1 S1].
  rewrite <- E1 in Hnd. rewrite <- S1 in Hsk.
  assert (H2 : forall F2 m2,
             (if m1 then Some (F1, true) else strengthReduction F1 K)
             = Some (F2, m2) ->
             exists snew,
               skeleton (getBlock F2 bi) = spre ++ (K, wK) :: snew ++ spost
               /\ totalWeight snew < wK).
  { intros F2 m2. destruct m1.
    - intros [= <- <-]. exists []. split; [exact Hsk|].
      apply (skeleton_weight_pos (getBlock F1 bi) K). rewrite Hsk.
      apply in_or_app. right. now left.
    - intros H. eapply strengthReduction_layout; eassumption. }
  destruct (if m1 then Some (F1, true) else strengthReduction F1 K)
    as [[F2 m2]|]; [|discriminate].
  specialize (H2 F2 m2 eq_refl).
  intros H. apply multiInstructionOptimization_sameLayout in H.
  destruct H as [_ H]. now rewrite H.
Qed.

Lemma totalWeight_app (S1 S2 : list (ident * nat)) :
  totalWeight (S1 ++ S2) = totalWeight S1 + totalWeight S2.
Proof. unfold totalWeight. now rewrite map_app, list_sum_app. Qed.

Lemma totalWeight_skeleton (B : BasicBlock) :
  totalWeight (skeleton B) <= 3 * length B.
Proof.
  unfold totalWeight, skeleton. rewrite map_map. simpl.
  induction B as [|[k I] B IH]; simpl; [lia|].
  destruct I as [[] a b|ops]; simpl; lia.
Qed.

(** The fuel is never used up: each visit lowers the weight of what is left
    of the block. *)
Lemma scan_fuel (bi : nat) (fuel : nat) :
  forall F K rm spre wK spost,
    NoDup (idents F) ->
    skeleton (getBlock F bi) = spre ++ (K, wK) :: spost ->
    wK + totalWeight spost <= fuel ->
    scan fuel F bi (Some K) rm <> OutOfFuel.
Proof.
  induction fuel as [|fuel IH]; intros F K rm spre wK spost Hnd Hsk Hfuel.
  - assert (0 < wK); [|lia].
    apply (skeleton_weight_pos (getBlock F bi) K). rewrite Hsk.
    apply in_or_app. right. now left.
  - simpl. destruct (visit F K rm) as [[F' rm']|] eqn:EV; [|discriminate].
    destruct (visit_layout _ _ _ _ _ bi spre spost wK EV Hnd Hsk)
      as [snew [Hsk' Hnew]].
    pose proof (visit_NoDup _ _ _ _ _ EV Hnd) as Hnd'.
    assert (Hnext : getNextNode (getBlock F' bi) K = front (snew ++ spost)).
    { rewrite <- getNextNode_skeleton, Hsk'.
      apply (getNextNode_split spre (snew ++ spost) (K, wK)).
      apply (NoDup_split_fst spre (snew ++ spost) (K, wK)).
      rewrite <- Hsk', skeleton_idents. now apply NoDup_getBlock. }
    rewrite Hnext.
    destruct (snew ++ spost) as [|[q wq] rest] eqn:Erest.
    + simpl. rewrite scan_done. discriminate.
    + simpl. apply (IH F' q rm' (spre ++ [(K, wK)]) wq rest Hnd').
      * rewrite Hsk', <- app_assoc. reflexivity.
      * assert (Hsum : totalWeight (snew ++ spost) = wq + totalWeight rest).
        { rewrite Erest. reflexivity. }
        rewrite totalWeight_app in Hsum. lia.
Qed.

Lemma scan_NoDup (bi : nat) (fuel : nat) :
  forall F cur rm F1 rm1,
    NoDup (idents F) -> scan fuel F bi cur rm = Returns (F1, rm1) ->
    NoDup (idents F1).
Proof.
  induction fuel as [|fuel IH]; intros F cur rm F1 rm1 Hnd;
    destruct cur as [K|]; simpl; try discriminate;
    try (now intros [= <- <-]).
  destruct (visit F K rm) as [[F' rm']|] eqn:EV; [|discriminate].
  apply IH. eapply visit_NoDup; eassumption.
Qed.

Lemma map_filter_comm {A B : Type} (g : A -> B) (f : B -> bool)
  (l : list A) :
  map g (filter (fun x => f (g x)) l) = filter f (map g l).
Proof.
  induction l as [|x l IH]; simpl; [reflexivity|].
  destruct (f (g x)); simpl; now rewrite IH.
Qed.

Lemma idents_without_filter (rm : list ident) (F : Function) :
  idents (without rm F)
  = filter (fun k => negb (existsb (Nat.eqb k) rm)) (idents F).
Proof.
  unfold idents, instructions, without.
  induction F as [|B F IH]; simpl; [reflexivity|].
  rewrite !map_app, filter_app. f_equal; [|exact IH].
  exact (map_filter_comm fst (fun k => negb (existsb (Nat.eqb k) rm)) B).
Qed.

(** *** The loops of the pass end *)

Lemma runOnBasicBlock_fuel (F : Function) (bi : nat) :
  NoDup (idents F) -> runOnBasicBlock F bi <> OutOfFuel.
Proof.
  intros Hnd. unfold runOnBasicBlock.
  destruct (scan (scanFuel F bi) F bi (front (getBlock F bi)) [])
    as [[F1 rm]| |] eqn:ES.
  - destruct (eraseAll F1 rm); discriminate.
  - discriminate.
  - exfalso. revert ES. unfold scanFuel.
    destruct (getBlock F bi) as [|p B] eqn:HB.
    + simpl. discriminate.
    + simpl front.
      apply (scan_fuel bi _ F (fst p) [] [] (weight (snd p)) (skeleton B) Hnd).
      * rewrite HB. reflexivity.
      * pose proof (totalWeight_skeleton (p :: B)) as H.
        unfold totalWeight in *. simpl in *. lia.
Qed.

Lemma runOnBasicBlock_NoDup (F F' : Function) (bi : nat) (b : bool) :
  NoDup (idents F) -> runOnBasicBlock F bi = Returns (F', b) ->
  NoDup (idents F').
Proof.
  intros Hnd. unfold runOnBasicBlock.
  destruct (scan (scanFuel F bi) F bi (front (getBlock F bi)) [])
    as [[F1 rm]| |] eqn:ES; try discriminate.
  destruct (eraseAll F1 rm) as [F2|] eqn:EE; [|discriminate].
  intros [= <- _]. apply eraseAll_without in EE. subst F2.
  rewrite idents_without_filter. apply NoDup_filter.
  eapply scan_NoDup; eassumption.
Qed.

Lemma runOnBlocks_fuel (n : nat) :
  forall bi F t, NoDup (idents F) -> runOnBlocks n bi F t <> OutOfFuel.
Proof.
  induction n as [|n IH]; simpl; intros bi F t Hnd; [discriminate|].
  destruct (runOnBasicBlock F bi) as [[F' b]| |] eqn:E.
  - apply IH. eapply runOnBasicBlock_NoDup; eassumption.
  - discriminate.
  - exfalso. exact (runOnBasicBlock_fuel F bi Hnd E).
Qed.

Lemma runOnFunction_fuel (F : Function) :
  NoDup (idents F) -> runOnFunction F <> OutOfFuel.
Proof. apply runOnBlocks_fuel. Qed.

Lemma runOnFunctions_fuel (todo : list Function) :
  forall done,
    Forall (fun F => NoDup (idents F)) todo ->
    runOnFunctions done todo <> OutOfFuel.
Proof.
  induction todo as [|F todo IH]; simpl; intros done Hnd; [discriminate|].
  inversion Hnd as [|F0 l HF Hrest]; subst.
  destruct (runOnFunction F) as [[F' b]| |] eqn:E.
  - destruct b; [discriminate|]. apply IH. exact Hrest.
  - discriminate.
  - exfalso. exact (runOnFunction_fuel F HF E).
Qed.

(** X1 -- The loops of the pass end.  On a module whose functions have unique
    handles the pass returns or runs into undefined behaviour; the fuel of
    the model, three visits for each instruction of the block, is never the
    reason for its answer. *)
Lemma run_fuel (M : Module_) :
  Forall (fun F => NoDup (idents F)) M -> run M <> OutOfFuel.
Proof. apply runOnFunctions_fuel. Qed.

(** ** Strength reduction on ordinary constants *)

Section Arithmetic.
Local Open Scope Z_scope.

(** The top bit of a [w]-bit value. *)
Lemma testbit_top (w x : Z) :
  0 < w -> 0 <= x < 2 ^ w -> Z.testbit x (w - 1) = (2 ^ (w - 1) <=? x).
Proof.
  intros Hw Hx.
  assert (Hp : 2 ^ w = 2 * 2 ^ (w - 1)).
  { replace w with (Z.succ (w - 1)) at 1 by lia. apply Z.pow_succ_r. lia. }
  assert (Hpos : 0 < 2 ^ (w - 1)) by (apply Z.pow_pos_nonneg; lia).
  destruct (2 ^ (w - 1) <=? x) eqn:E.
  - apply Z.leb_le in E. apply Z.testbit_true; [lia|].
    replace (x / 2 ^ (w - 1)) with 1; [reflexivity|].
    apply Z.div_unique with (r := x - 2 ^ (w - 1)); lia.
  - apply Z.leb_gt in E. apply Z.testbit_false; [lia|].
    rewrite Z.div_small by lia. reflexivity.
Qed.

Lemma abs_rest (w u k : Z) :
  32 <= w -> 0 <= u < 2 ^ 30 -> 0 <= k <= 30 ->
  APInt.VAL (APInt.abs (APInt.sub_u64 (APInt.mk w u) (CInt.to_uint64 (2 ^ k))))
  = Z.abs (u - 2 ^ k)
  /\ APInt.VAL (APInt.sub_u64 (APInt.mk w u) (CInt.to_uint64 (2 ^ k)))
     = (u - 2 ^ k) mod 2 ^ w
  /\ ((u - 2 ^ k) mod 2 ^ w = 0 <-> u - 2 ^ k = 0).
Proof.
  intros Hw Hu Hk.
  assert (Hk30 : 0 < 2 ^ k <= 2 ^ 30).
  { split; [apply Z.pow_pos_nonneg; lia|apply Z.pow_le_mono_r; lia]. }
  assert (Hw31 : 2 ^ 31 <= 2 ^ (w - 1)) by (apply Z.pow_le_mono_r; lia).
  assert (Hp : 2 ^ w = 2 * 2 ^ (w - 1)).
  { replace w with (Z.succ (w - 1)) at 1 by lia. apply Z.pow_succ_r. lia. }
  assert (H64 : CInt.to_uint64 (2 ^ k) = 2 ^ k).
  { unfold CInt.to_uint64. apply Z.mod_small.
    assert (2 ^ 30 < 2 ^ 64) by (apply Z.pow_lt_mono_r; lia). lia. }
  change (2 ^ 30) with 1073741824 in *. change (2 ^ 31) with 2147483648 in *.
  unfold APInt.abs, APInt.isNegative, APInt.neg, APInt.sub_u64,
    APInt.clearUnusedBits. cbn [APInt.VAL APInt.BitWidth]. rewrite H64.
  assert (Hmod : 0 <= (u - 2 ^ k) mod 2 ^ w < 2 ^ w)
    by (apply Z.mod_pos_bound; lia).
  rewrite testbit_top by lia.
  destruct (Z_le_gt_dec (2 ^ k) u) as [Hge|Hlt].
  - rewrite (Z.mod_small (u - 2 ^ k)) by lia.
    destruct (2 ^ (w - 1) <=? u - 2 ^ k) eqn:E;
      [apply Z.leb_le in E; lia|].
    cbn [APInt.VAL]. repeat split; try lia.
  - assert (Hm : (u - 2 ^ k) mod 2 ^ w = u - 2 ^ k + 2 ^ w).
    { symmetry. apply Z.mod_unique with (q := -1); lia. }
    rewrite Hm.
    destruct (2 ^ (w - 1) <=? u - 2 ^ k + 2 ^ w) eqn:E;
      [|apply Z.leb_gt in E; lia].
    cbn [APInt.VAL]. repeat split; try lia.
    symmetry. apply Z.mod_unique with (q := -1); lia.
Qed.

Lemma nearestLogBase2_bounds (c : APInt.t) :
  APInt.BitWidth c <> 1 -> 2 <= APInt.VAL c < 2 ^ 30 ->
  1 <= APInt.nearestLogBase2 c <= 30.
Proof.
  intros Hw Hu. unfold APInt.nearestLogBase2, APInt.logBase2.
  apply Z.eqb_neq in Hw. rewrite Hw.
  destruct (APInt.VAL c =? 0) eqn:E; [apply Z.eqb_eq in E; lia|].
  assert (1 <= Z.log2 (APInt.VAL c)).
  { change 1 with (Z.log2 2). apply Z.log2_le_mono. lia. }
  assert (Z.log2 (APInt.VAL c) < 30) by (apply Z.log2_lt_pow2; lia).
  destruct (Z.testbit _ _); simpl; lia.
Qed.

Lemma small_constant_arith (c : APInt.t) :
  32 <= APInt.BitWidth c -> 2 <= APInt.VAL c < 2 ^ 30 ->
  let k := APInt.nearestLogBase2 c in
  let r := APInt.VAL c - 2 ^ k in
  let Rest := APInt.sub_u64 c (CInt.to_uint64 (2 ^ k)) in
  CInt.of_unsigned k = k
  /\ CInt.shl_one k = Some (2 ^ k)
  /\ APInt.clearUnusedBits 32 k = k
  /\ APInt.ugt (APInt.abs Rest) 1 = (1 <? Z.abs r)
  /\ APInt.ne_u64 Rest 0 = negb (r =? 0).
Proof.
  intros Hw Hu k r Rest.
  assert (Hk : 1 <= k <= 30) by (apply nearestLogBase2_bounds; lia).
  destruct c as [w u]. cbn [APInt.VAL APInt.BitWidth] in *.
  destruct (abs_rest w u k Hw ltac:(lia) ltac:(lia)) as [Habs [Hval Hzero]].
  repeat split.
  - unfold CInt.of_unsigned.
    destruct (k <? 2 ^ 31) eqn:E; [reflexivity|].
    apply Z.ltb_ge in E. change (2 ^ 31) with 2147483648 in E. lia.
  - unfold CInt.shl_one.
    destruct ((0 <=? k) && (k <? 31)) eqn:E; [reflexivity|].
    apply andb_false_iff in E.
    destruct E as [E|E]; [apply Z.leb_gt in E|apply Z.ltb_ge in E]; lia.
  - unfold APInt.clearUnusedBits. apply Z.mod_small.
    change (2 ^ 32) with 4294967296. lia.
  - unfold APInt.ugt. fold Rest in Habs. rewrite Habs. reflexivity.
  - unfold APInt.ne_u64, APInt.eq_u64. fold Rest in Hval. rewrite Hval.
    f_equal. fold r in Hzero.
    destruct (r =? 0) eqn:E.
    + apply Z.eqb_eq in E. apply Z.eqb_eq. now apply Hzero.
    + apply Z.eqb_neq in E. apply Z.eqb_neq. intros H. now apply E, Hzero.
Qed.

(** For a constant from 2 to 2^30 - 1 of width 32 or more nothing wraps and
    no shift is undefined: [Rest] is [c - 2^k], with [k] the nearest
    logarithm. *)
Section SmallConstants.
Variables (F : Function) (K : ident) (opc : BinaryOps) (a b v : Value)
  (c : APInt.t).
Hypothesis HK : getInst F K = Some (BinaryOperator opc a b).
Hypothesis Hslots :
  (a = ConstantInt c /\ b = v) \/ (a = v /\ b = ConstantInt c).
Hypothesis Hv : isa_ConstantInt v = false.
Hypothesis Hopc : opc = Mul \/ opc = SDiv.
Hypothesis Hw : 32 <= APInt.BitWidth c.
Hypothesis Hc : 2 <= APInt.VAL c < 2 ^ 30.

(** X4 -- What the rule does to a [mul] or [sdiv] by such a constant: no
    match when [|r| > 1], no match for an [sdiv] when [r] is not 0;
    otherwise a shift by [k], followed for a [mul] with [r] not 0 by an
    [add] of the shift and the variable, whatever the sign of [r]. *)
Lemma strengthReduction_small_constant :
  strengthReduction F K
  = if 1 <? Z.abs (remainder c) then Some (F, false)
    else if negb (opc_eqb opc Mul) && negb (remainder c =? 0)
    then Some (F, false)
    else
      let ShiftInst :=
        BinaryOperator (if opc_eqb opc Mul then Shl else AShr) v
                       (ConstantInt (APInt.mk 32 (APInt.nearestLogBase2 c))) in
      let F1 := insertAfter F K (fresh F, ShiftInst) in
      if opc_eqb opc Mul && negb (remainder c =? 0) then
        let RestInst := BinaryOperator Add (InstResult (fresh F)) v in
        let F2 := insertAfter F1 (fresh F) (fresh F1, RestInst) in
        Some (redirect K (InstResult (fresh F1)) F2, true)
      else Some (redirect K (InstResult (fresh F)) F1, true).
Proof.
  destruct (small_constant_arith c Hw Hc) as [Hint [Hshl [H32 [Habs Hne]]]].
  fold (remainder c) in Habs, Hne.
  assert (HKin : In K (idents F)) by (eapply getInst_ident; exact HK).
  unfold strengthReduction. rewrite HK.
  assert (Hpre : checkOperands a b = true
                 /\ (if isa_ConstantInt a then a else b) = ConstantInt c
                 /\ (if isa_ConstantInt a then b else a) = v).
  { destruct Hslots as [[-> ->]|[-> ->]]; unfold checkOperands; simpl;
      rewrite ?Hv; simpl; auto. }
  destruct Hpre as [Hmixed [Hconst Hvar]].
  rewrite Hmixed, Hconst, Hvar. cbn [negb dyn_cast_ConstantInt_getValue].
  replace (negb (opc_eqb opc Mul) && negb (opc_eqb opc SDiv)) with false
    by (destruct Hopc as [-> | ->]; reflexivity).
  rewrite Hint, Hshl. cbv zeta. rewrite Habs, Hne, H32.
  destruct (1 <? Z.abs (remainder c)); [reflexivity|].
  destruct (negb (opc_eqb opc Mul) && negb (remainder c =? 0));
    [reflexivity|].
  destruct (opc_eqb opc Mul && negb (remainder c =? 0)) eqn:Ecorr.
  - rewrite correction_always_Add; [|lia|].
    + set (F1 := insertAfter F K _).
      set (F2 := insertAfter F1 _ _).
      assert (HR : replaceAllUsesWith F2 K (InstResult (fresh F1))
                   = Some (redirect K (InstResult (fresh F1)) F2)).
      { unfold replaceAllUsesWith.
        destruct (Value_eq_dec (InstResult (fresh F1)) (InstResult K))
          as [E|E]; [|reflexivity].
        injection E as E. exfalso. apply (fresh_not_In F1). rewrite E.
        apply idents_insertAfter_old. exact HKin. }
      rewrite HR. reflexivity.
    + rewrite Hne. apply andb_true_iff in Ecorr. apply Ecorr.
  - set (F1 := insertAfter F K _).
    assert (HR : replaceAllUsesWith F1 K (InstResult (fresh F))
                 = Some (redirect K (InstResult (fresh F)) F1)).
    { unfold replaceAllUsesWith.
      destruct (Value_eq_dec (InstResult (fresh F)) (InstResult K))
        as [E|E]; [|reflexivity].
      injection E as E. exfalso. apply (fresh_not_In F). now rewrite E. }
    rewrite HR. reflexivity.
Qed.
End SmallConstants.

(** *** When a division is rewritten *)

Lemma mod_zero_small (d W : Z) : - W < d < W -> d mod W = 0 -> d = 0.
Proof.
  intros Hd Hm. destruct (Z_lt_ge_dec d 0) as [Hneg|Hpos].
  - assert (E : d mod W = d + W).
    { symmetry. apply Z.mod_unique with (q := -1); lia. }
    lia.
  - rewrite Z.mod_small in Hm by lia. exact Hm.
Qed.

(** A remainder of 0 means that the bits of the constant are the power of
    two that was subtracted. *)
Lemma rest_zero_power_of_two (c : APInt.t) (pow : Z) :
  0 < APInt.BitWidth c < 2 ^ 31 ->
  0 <= APInt.VAL c < 2 ^ APInt.BitWidth c ->
  CInt.shl_one (CInt.of_unsigned (APInt.nearestLogBase2 c)) = Some pow ->
  APInt.VAL (APInt.sub_u64 c (CInt.to_uint64 pow)) = 0 ->
  exists k, 0 <= k <= 31 /\ k < APInt.BitWidth c /\ APInt.VAL c = 2 ^ k.
Proof.
  destruct c as [w u]. cbn [APInt.VAL APInt.BitWidth APInt.sub_u64].
  unfold APInt.clearUnusedBits, CInt.to_uint64.
  intros Hw Hu Hshl Hrest.
  change (2 ^ 31) with 2147483648 in Hw.
  assert (HW : 0 < 2 ^ w) by (apply Z.pow_pos_nonneg; lia).
  unfold APInt.nearestLogBase2, APInt.logBase2 in Hshl.
  cbn [APInt.VAL APInt.BitWidth] in Hshl.
  destruct (w =? 1) eqn:Ew1.
  - (* width 1 *)
    apply Z.eqb_eq in Ew1. subst w. change (2 ^ 1) with 2 in *.
    assert (Hcases : u = 0 \/ u = 1) by lia.
    destruct Hcases as [-> | ->]; vm_compute in Hshl; [discriminate|].
    exists 0. repeat split; lia.
  - apply Z.eqb_neq in Ew1.
    destruct (u =? 0) eqn:Eu0; [vm_compute in Hshl; discriminate|].
    apply Z.eqb_neq in Eu0.
    assert (Hupos : 0 < u) by lia.
    pose proof (Z.log2_spec u Hupos) as [HL1 HL2].
    assert (Hlg0 : 0 <= Z.log2 u) by apply Z.log2_nonneg.
    assert (Hlgw : Z.log2 u < w) by (apply Z.log2_lt_pow2; lia).
    set (lg := Z.log2 u) in *.
    set (kk := lg + Z.b2z (Z.testbit u (lg - 1))) in *.
    assert (Hkk : kk = lg \/ kk = lg + 1)
      by (unfold kk; destruct (Z.testbit u (lg - 1)); simpl; lia).
    assert (Hint : CInt.of_unsigned kk = kk).
    { unfold CInt.of_unsigned. change (2 ^ 31) with 2147483648.
      destruct (kk <? 2147483648) eqn:E; [reflexivity|].
      apply Z.ltb_ge in E. lia. }
    rewrite Hint in Hshl. unfold CInt.shl_one in Hshl.
    assert (HP : 2 ^ kk <= 2 * u).
    { destruct Hkk as [-> | ->]; [lia|].
      replace (lg + 1) with (Z.succ lg) by lia.
      rewrite Z.pow_succ_r by lia. lia. }
    destruct ((0 <=? kk) && (kk <? 31)) eqn:Esmall.
    + (* a shift count up to 30 *)
      injection Hshl as <-.
      apply andb_true_iff in Esmall. destruct Esmall as [E1 E2].
      apply Z.leb_le in E1. apply Z.ltb_lt in E2.
      assert (Hp30 : 0 < 2 ^ kk <= 2 ^ 30).
      { split; [apply Z.pow_pos_nonneg; lia|apply Z.pow_le_mono_r; lia]. }
      change (2 ^ 30) with 1073741824 in Hp30.
      rewrite (Z.mod_small (2 ^ kk)) in Hrest
        by (change (2 ^ 64) with 18446744073709551616; lia).
      apply mod_zero_small in Hrest; [|lia].
      exists kk. repeat split; try lia.
      apply (Z.pow_lt_mono_r_iff 2); lia.
    + destruct (kk =? 31) eqn:E31; [|discriminate].
      injection Hshl as <-. apply Z.eqb_eq in E31.
      assert (Emin : -2147483648 mod 2 ^ 64 = 18446744071562067968)
        by reflexivity.
      rewrite Emin in Hrest. clear Emin.
      (* [lg] is 30 or 31, so [u] is between 2^30 and 2^32 *)
      assert (Hu30 : 1073741824 <= u < 4294967296).
      { destruct Hkk as [Hk|Hk].
        - assert (lg = 31) by lia.
          replace lg with 31 in HL1, HL2 by lia.
          change (2 ^ 31) with 2147483648 in HL1.
          change (2 ^ Z.succ 31) with 4294967296 in HL2. lia.
        - assert (lg = 30) by lia.
          replace lg with 30 in HL1, HL2 by lia.
          change (2 ^ 30) with 1073741824 in HL1.
          change (2 ^ Z.succ 30) with 2147483648 in HL2. lia. }
      assert (Hw31 : 31 <= w) by lia.
      destruct (Z_le_gt_dec w 32) as [Hle|Hgt].
      * assert (Hw' : w = 31 \/ w = 32) by lia.
        destruct Hw' as [-> | ->].
        -- change (2 ^ 31) with 2147483648 in *. exfalso.
           clear - Hrest Hu Hu30. Z.div_mod_to_equations. lia.
        -- change (2 ^ 32) with 4294967296 in *.
           exists 31. change (2 ^ 31) with 2147483648.
           repeat split; try lia.
           clear - Hrest Hu Hu30. Z.div_mod_to_equations. lia.
      * exfalso.
        assert (H33 : 2 ^ 33 <= 2 ^ w) by (apply Z.pow_le_mono_r; lia).
        change (2 ^ 33) with 8589934592 in H33.
        destruct (Z_le_gt_dec w 64) as [Hle64|Hgt64].
        -- (* 2^w divides 2^64 *)
           assert (H64 : 18446744073709551616 = 2 ^ w * 2 ^ (64 - w)).
           { rewrite <- Z.pow_add_r by lia.
             replace (w + (64 - w)) with 64 by lia. reflexivity. }
           assert (Hm : (u + 2147483648) mod 2 ^ w = 0).
           { replace (u + 2147483648)
               with (u - 18446744071562067968 + 2 ^ (64 - w) * 2 ^ w) by lia.
             rewrite Z.mod_add by lia. exact Hrest. }
           rewrite Z.mod_small in Hm by lia. lia.
        -- assert (H65 : 2 ^ 65 <= 2 ^ w) by (apply Z.pow_le_mono_r; lia).
           change (2 ^ 65) with 36893488147419103232 in H65.
           apply mod_zero_small in Hrest; lia.
Qed.

Lemma getSExtValue_power_of_two (w k : Z) :
  0 <= k < w ->
  APInt.getSExtValue (APInt.mk w (2 ^ k))
  = if k =? w - 1 then - 2 ^ k else 2 ^ k.
Proof.
  intros Hk. unfold APInt.getSExtValue, APInt.isNegative.
  cbn [APInt.VAL APInt.BitWidth].
  rewrite Z.pow2_bits_eqb by lia.
  destruct (k =? w - 1) eqn:E; [|reflexivity].
  apply Z.eqb_eq in E.
  replace w with (Z.succ k) by lia. rewrite Z.pow_succ_r by lia. lia.
Qed.

(** X5 -- An [sdiv] is rewritten only if the bits of its constant are a
    power of two, 2^31 at most; read as a signed number the constant is then
    that power of two, or the least number of its width. *)
Lemma strengthReduction_sdiv_matched (F F' : Function) (K : ident)
  (a b v : Value) (c : APInt.t) :
  getInst F K = Some (BinaryOperator SDiv a b) ->
  (a = ConstantInt c /\ b = v) \/ (a = v /\ b = ConstantInt c) ->
  isa_ConstantInt v = false ->
  0 < APInt.BitWidth c < 2 ^ 31 ->
  0 <= APInt.VAL c < 2 ^ APInt.BitWidth c ->
  strengthReduction F K = Some (F', true) ->
  exists k,
    0 <= k <= 31 /\ k < APInt.BitWidth c /\ APInt.VAL c = 2 ^ k
    /\ APInt.getSExtValue c
       = if k =? APInt.BitWidth c - 1 then - 2 ^ k else 2 ^ k.
Proof.
  intros HK Hslots Hv Hw Hc. unfold strengthReduction. rewrite HK.
  assert (Hpre : checkOperands a b = true
                 /\ (if isa_ConstantInt a then a else b) = ConstantInt c).
  { destruct Hslots as [[-> ->]|[-> ->]]; unfold checkOperands; simpl;
      rewrite ?Hv; simpl; auto. }
  destruct Hpre as [Hmixed Hconst].
  rewrite Hmixed, Hconst. cbn [negb dyn_cast_ConstantInt_getValue].
  change (negb (opc_eqb SDiv Mul) && negb (opc_eqb SDiv SDiv)) with false.
  change (opc_eqb SDiv Mul) with false. cbv iota.
  destruct (CInt.shl_one _) as [pow|] eqn:Eshl; [|discriminate].
  cbv zeta. destruct (APInt.ugt (APInt.abs _) 1); [discriminate|].
  cbn [negb andb].
  destruct (APInt.ne_u64 _ 0) eqn:Ene; [discriminate|]. intros _.
  unfold APInt.ne_u64, APInt.eq_u64 in Ene.
  apply negb_false_iff, Z.eqb_eq in Ene.
  destruct (rest_zero_power_of_two c pow Hw Hc Eshl Ene) as [k [Hk [Hkw Hu]]].
  exists k. repeat split; try lia.
  destruct c as [w u]. cbn [APInt.VAL APInt.BitWidth] in *. subst u.
  apply getSExtValue_power_of_two. lia.
Qed.
End Arithmetic.

(** ** Runs on the sample blocks *)

(** The block left by a run on [mul_by_8] is one on which no rule fires. *)
Lemma mul_by_8_reduced_fullyReduced : fullyReduced mul_by_8_reduced 0.
Proof.
  intros K HK rm. simpl in HK.
  destruct HK as [<-|[<-|[]]]; reflexivity.
Qed.

(** The three rules in one run: [%1] goes by identity, [%2] by strength
    reduction, [%4] by cancellation with [%3]. *)
Lemma three_rules_run :
  runOnBasicBlock three_rules 0 = Returns (three_rules_reduced, true).
Proof. vm_compute. reflexivity. Qed.

(** One run does not always leave a block on which no rule fires: the inner
    pair of a nested cancellation goes in the first run, the outer pair in
    the second. *)
Lemma nested_cancellation_needs_two_runs :
  runOnBasicBlock nested_cancellation 0
  = Returns (nested_cancellation_once, true)
  /\ runOnBasicBlock nested_cancellation_once 0
     = Returns (nested_cancellation_twice, true)
  /\ runOnBasicBlock nested_cancellation_twice 0
     = Returns (nested_cancellation_twice, true).
Proof. repeat split; vm_compute; reflexivity. Qed.

(** * Further properties of the pass *)

(** ** Looking up an instruction after a step *)

Lemma find_app_or {A : Type} (f : A -> bool) (l1 l2 : list A) :
  find f (l1 ++ l2)
  = match find f l1 with Some x => Some x | None => find f l2 end.
Proof.
  induction l1 as [|x l1 IH]; simpl; [reflexivity|].
  destruct (f x); [reflexivity|exact IH].
Qed.

Lemma getInst_redirect (old : ident) (new : Value) (F : Function) (k : ident) :
  getInst (redirect old new F) k
  = option_map (replaceInInst old new) (getInst F k).
Proof.
  unfold getInst. rewrite instructions_redirect.
  induction (instructions F) as [|[j J] l IH]; simpl; [reflexivity|].
  destruct (Nat.eqb j k); [reflexivity|exact IH].
Qed.

Lemma find_insertAfterInBlock (a n k : ident) (I : Instruction)
  (B : BasicBlock) :
  k <> n ->
  find (fun p => Nat.eqb (fst p) k) (insertAfterInBlock a (n, I) B)
  = find (fun p => Nat.eqb (fst p) k) B.
Proof.
  intros Hk. induction B as [|[j J] B IH]; simpl; [reflexivity|].
  destruct (Nat.eqb j a); simpl.
  - destruct (Nat.eqb j k); [reflexivity|].
    destruct (Nat.eqb n k) eqn:E; [|reflexivity].
    apply Nat.eqb_eq in E. congruence.
  - destruct (Nat.eqb j k); [reflexivity|exact IH].
Qed.

Lemma getInst_insertAfter (F : Function) (a n k : ident) (I : Instruction) :
  k <> n -> getInst (insertAfter F a (n, I)) k = getInst F k.
Proof.
  intros Hk. unfold getInst, instructions, insertAfter.
  assert (H : find (fun p => Nat.eqb (fst p) k)
                (concat (map (insertAfterInBlock a (n, I)) F))
              = find (fun p => Nat.eqb (fst p) k) (concat F)).
  { induction F as [|B F IH]; simpl; [reflexivity|].
    rewrite !find_app_or, find_insertAfterInBlock by exact Hk.
    now rewrite IH. }
  now rewrite H.
Qed.

Lemma find_filter_fst {A : Type} (k : ident) (g : ident -> bool)
  (l : list (ident * A)) :
  g k = true ->
  find (fun p => Nat.eqb (fst p) k) (filter (fun p => g (fst p)) l)
  = find (fun p => Nat.eqb (fst p) k) l.
Proof.
  intros Hg. induction l as [|[j x] l IH]; simpl; [reflexivity|].
  destruct (Nat.eqb j k) eqn:E.
  - apply Nat.eqb_eq in E. subst j. rewrite Hg. simpl.
    now rewrite Nat.eqb_refl.
  - destruct (g j); simpl; [now rewrite E|exact IH].
Qed.

Lemma getInst_without (rm : list ident) (F : Function) (k : ident) :
  ~ In k rm -> getInst (without rm F) k = getInst F k.
Proof.
  intros Hk. unfold getInst, instructions, without.
  assert (Hg : negb (existsb (Nat.eqb k) rm) = true).
  { apply negb_true_iff. destruct (existsb (Nat.eqb k) rm) eqn:E;
      [|reflexivity].
    apply existsb_exists in E. destruct E as [j [Hj E]].
    apply Nat.eqb_eq in E. now subst j. }
  assert (H : find (fun p => Nat.eqb (fst p) k)
                (concat (map (filter (fun p : ident * Instruction =>
                           negb (existsb (Nat.eqb (fst p)) rm))) F))
              = find (fun p => Nat.eqb (fst p) k) (concat F)).
  { induction F as [|B F IH]; simpl; [reflexivity|].
    rewrite !find_app_or, IH.
    now rewrite (find_filter_fst k (fun j => negb (existsb (Nat.eqb j) rm))). }
  exact (f_equal (fun o : option (ident * Instruction) =>
                    match o with Some p => Some (snd p) | None => None end) H).
Qed.

Lemma getInst_None (F : Function) (k : ident) :
  getInst F k = None <-> ~ In k (idents F).
Proof.
  unfold getInst, idents. split.
  - destruct (find (fun p => Nat.eqb (fst p) k) (instructions F)) eqn:E;
      [discriminate|].
    intros _ Hin. apply in_map_iff in Hin. destruct Hin as [p [Hp Hin]].
    pose proof (find_none _ _ E p Hin) as H. simpl in H.
    apply Nat.eqb_neq in H. contradiction.
  - intros Hn.
    destruct (find (fun p => Nat.eqb (fst p) k) (instructions F)) eqn:E;
      [|reflexivity].
    exfalso. apply Hn. apply find_some in E. destruct E as [Hin E].
    apply Nat.eqb_eq in E. rewrite <- E. now apply in_map.
Qed.

Lemma In_getInst (F : Function) (k : ident) (I : Instruction) :
  NoDup (idents F) -> In (k, I) (instructions F) -> getInst F k = Some I.
Proof.
  intros Hnd Hin. destruct (getInst F k) as [I'|] eqn:E.
  - f_equal. symmetry. exact (getInst_unique F k I' I Hnd E Hin).
  - exfalso. apply getInst_None in E. apply E.
    unfold idents. change k with (fst (k, I)). now apply in_map.
Qed.

(** ** One step, many steps *)

Lemma steps_trans (st1 st2 st3 : Function * list ident) :
  steps st1 st2 -> steps st2 st3 -> steps st1 st3.
Proof.
  induction 1 as [st|sa sb sc Hs _ IH]; intros H; [exact H|].
  eapply steps_cons; [exact Hs|]. now apply IH.
Qed.

Lemma steps_one (st1 st2 : Function * list ident) :
  step st1 st2 -> steps st1 st2.
Proof. intros H. eapply steps_cons; [exact H|apply steps_refl]. Qed.

(** A step keeps the instructions that are there and their opcodes. *)
Lemma step_keeps_opcode (st st' : Function * list ident) (k : ident)
  (I : Instruction) :
  step st st' -> getInst (fst st) k = Some I ->
  exists I', getInst (fst st') k = Some I' /\ opcodeOf I' = opcodeOf I.
Proof.
  intros Hs HI. destruct Hs as [F rm a n I0 Ha Hn|F F' rm K opc a b v HK He HR];
    simpl in *.
  - exists I. split; [|reflexivity]. rewrite getInst_insertAfter; [exact HI|].
    intros ->. apply Hn. eapply getInst_ident. exact HI.
  - apply replaceAllUsesWith_Some in HR. destruct HR as [_ ->].
    rewrite getInst_redirect, HI. simpl. eexists. split; [reflexivity|].
    now destruct I.
Qed.

Lemma steps_keeps_opcode (st st' : Function * list ident) :
  steps st st' ->
  forall k I, getInst (fst st) k = Some I ->
  exists I', getInst (fst st') k = Some I' /\ opcodeOf I' = opcodeOf I.
Proof.
  induction 1 as [st|sa sb sc Hs _ IH]; intros k I HI.
  - exists I. split; [exact HI|reflexivity].
  - destruct (step_keeps_opcode _ _ k I Hs HI) as [I1 [H1 E1]].
    destruct (IH k I1 H1) as [I2 [H2 E2]].
    exists I2. split; [exact H2|congruence].
Qed.

Lemma step_listedArithmetic (st st' : Function * list ident) :
  step st st' -> listedArithmetic (fst st) (snd st) ->
  listedArithmetic (fst st') (snd st').
Proof.
  intros Hs HQ k Hk.
  assert (Hold : In k (snd st) ->
                 exists opc a b,
                   getInst (fst st') k = Some (BinaryOperator opc a b)
                   /\ erasableOp opc = true).
  { intros Hin. destruct (HQ k Hin) as [opc [a [b [HI He]]]].
    destruct (step_keeps_opcode _ _ k _ Hs HI) as [I' [HI' E]].
    destruct I' as [opc' a' b'|ops]; simpl in E; [|discriminate].
    injection E as ->. now exists opc, a', b'. }
  destruct Hs as [F rm a n I0 Ha Hn|F F' rm K opc a b v HK He HR];
    simpl in *; [now apply Hold|].
  apply in_app_or in Hk. destruct Hk as [Hk|[<-|[]]]; [now apply Hold|].
  apply replaceAllUsesWith_Some in HR. destruct HR as [_ ->].
  rewrite getInst_redirect, HK. simpl. now eexists _, _, _.
Qed.

Lemma steps_listedArithmetic (st st' : Function * list ident) :
  steps st st' -> listedArithmetic (fst st) (snd st) ->
  listedArithmetic (fst st') (snd st').
Proof.
  induction 1 as [st|sa sb sc Hs _ IH]; intros HQ; [exact HQ|].
  apply IH. eapply step_listedArithmetic; eassumption.
Qed.

Lemma length_redirect (old : ident) (new : Value) (F : Function) :
  length (redirect old new F) = length F.
Proof. unfold redirect. apply length_map. Qed.

Lemma step_length (st st' : Function * list ident) :
  step st st' -> length (fst st') = length (fst st).
Proof.
  intros Hs. destruct Hs as [F rm a n I0 Ha Hn|F F' rm K opc a b v HK He HR];
    simpl.
  - unfold insertAfter. apply length_map.
  - apply replaceAllUsesWith_Some in HR. destruct HR as [_ ->].
    apply length_redirect.
Qed.

Lemma steps_length (st st' : Function * list ident) :
  steps st st' -> length (fst st') = length (fst st).
Proof.
  induction 1 as [st|sa sb sc Hs _ IH]; [reflexivity|].
  rewrite IH. now apply step_length.
Qed.

(** ** Every rule is made of steps *)

Lemma identityPair_erasable (opc : BinaryOps) (c : APInt.t) :
  identityPair opc c = true -> erasableOp opc = true.
Proof. destruct opc; simpl; intros H; try discriminate; reflexivity. Qed.

Lemma oppositeOps_erasable (opI opJ : BinaryOps) :
  oppositeOps opI opJ = true -> erasableOp opJ = true.
Proof. destruct opI, opJ; simpl; intros H; try discriminate; reflexivity. Qed.

Lemma algebraicIdentity_steps (F F' : Function) (K : ident) (m : bool)
  (rm : list ident) :
  algebraicIdentity F K = Some (F', m) ->
  steps (F, rm) (F', if m then rm ++ [K] else rm).
Proof.
  unfold algebraicIdentity.
  destruct (getInst F K) as [[opc a b|ops]|] eqn:EK;
    [|intros [= <- <-]; apply steps_refl|discriminate].
  destruct (negb (checkOperands a b)); [intros [= <- <-]; apply steps_refl|].
  destruct (dyn_cast_ConstantInt_getValue _) as [c|]; [|discriminate].
  rewrite identityPair_test.
  destruct (identityPair opc c) eqn:Ep; [|intros [= <- <-]; apply steps_refl].
  destruct (replaceAllUsesWith _ _ _) as [F1|] eqn:ER; [|discriminate].
  intros [= <- <-]. apply steps_one.
  eapply step_mark; [exact EK| |exact ER].
  eapply identityPair_erasable. exact Ep.
Qed.

Lemma strengthReduction_steps (F F' : Function) (K : ident) (m : bool)
  (rm : list ident) :
  strengthReduction F K = Some (F', m) ->
  steps (F, rm) (F', if m then rm ++ [K] else rm).
Proof.
  unfold strengthReduction.
  destruct (getInst F K) as [[opc a b|ops]|] eqn:EK;
    [|intros [= <- <-]; apply steps_refl|discriminate].
  destruct (negb (checkOperands a b)); [intros [= <- <-]; apply steps_refl|].
  destruct (negb (opc_eqb opc Mul) && negb (opc_eqb opc SDiv)) eqn:Eop;
    [intros [= <- <-]; apply steps_refl|].
  assert (He : erasableOp opc = true)
    by (destruct opc; simpl in *; try discriminate; reflexivity).
  destruct (dyn_cast_ConstantInt_getValue _) as [c|]; [|discriminate].
  destruct (CInt.shl_one _) as [pow|]; [|discriminate].
  cbv zeta.
  destruct (APInt.ugt (APInt.abs _) 1); [intros [= <- <-]; apply steps_refl|].
  destruct (negb (opc_eqb opc Mul) && APInt.ne_u64 _ 0);
    [intros [= <- <-]; apply steps_refl|].
  assert (HK : In K (idents F)) by (eapply getInst_ident; exact EK).
  assert (HKs : K <> fresh F).
  { intros E. apply (fresh_not_In F). now rewrite <- E. }
  destruct (opc_eqb opc Mul && APInt.ne_u64 _ 0);
    (destruct (replaceAllUsesWith _ _ _) as [F3|] eqn:ER; [|discriminate]);
    intros [= <- <-].
  - match type of ER with
      replaceAllUsesWith (insertAfter ?G1 _ (?r, _)) _ _ = _ =>
        set (F1 := G1) in *
    end.
    assert (HK1 : In K (idents F1)) by (apply idents_insertAfter_old; exact HK).
    assert (HKr : K <> fresh F1).
    { intros E. apply (fresh_not_In F1). now rewrite <- E. }
    eapply steps_cons; [apply step_insert; [exact HK|apply fresh_not_In]|].
    eapply steps_cons.
    + apply step_insert; [|apply fresh_not_In].
      apply (In_insertAfter_new F K (fresh F, _)). exact HK.
    + apply steps_one. eapply step_mark; [|exact He|exact ER].
      fold F1. rewrite getInst_insertAfter by exact HKr.
      unfold F1. rewrite getInst_insertAfter by exact HKs. exact EK.
  - eapply steps_cons; [apply step_insert; [exact HK|apply fresh_not_In]|].
    apply steps_one. eapply step_mark; [|exact He|exact ER].
    rewrite getInst_insertAfter by exact HKs. exact EK.
Qed.

Lemma cancelUse_steps (K J : ident) (c : APInt.t)
  (st st' : Function * list ident) :
  cancelUse K c st J = Some st' -> steps st st'.
Proof.
  unfold cancelUse.
  destruct (getInst (fst st) J) as [[opJ j0 j1|ops]|] eqn:EJ;
    [|intros [= <-]; apply steps_refl|discriminate].
  destruct (negb (checkOperands j0 j1)); [intros [= <-]; apply steps_refl|].
  destruct (getInst (fst st) K) as [[opI i0 i1|ops]|]; try discriminate.
  destruct (oppositeOps opI opJ) eqn:Eo; [|intros [= <-]; apply steps_refl].
  destruct (dyn_cast_ConstantInt_getValue _) as [d|]; [|discriminate].
  destruct (APInt.eqb c d); [|intros [= <-]; apply steps_refl].
  destruct (replaceAllUsesWith _ _ _) as [F1|] eqn:ER; [|discriminate].
  intros [= <-]. destruct st as [F rm]. simpl in *. apply steps_one.
  eapply step_mark; [exact EJ| |exact ER].
  eapply oppositeOps_erasable. exact Eo.
Qed.

Lemma forEachUse_steps (K : ident) (c : APInt.t) (us : list ident) :
  forall st st', forEachUse K c us st = Some st' -> steps st st'.
Proof.
  induction us as [|u us IH]; simpl; intros st st'.
  - intros [= <-]. apply steps_refl.
  - destruct (cancelUse K c st u) as [st1|] eqn:E; [|discriminate].
    intros H. eapply steps_trans; [eapply cancelUse_steps; exact E|].
    now apply IH.
Qed.

Lemma multiInstructionOptimization_steps (F F' : Function) (K : ident)
  (rm rm' : list ident) :
  multiInstructionOptimization F K rm = Some (F', rm') ->
  steps (F, rm) (F', rm').
Proof.
  unfold multiInstructionOptimization.
  destruct (getInst F K) as [[opc a b|ops]|];
    [|intros [= <- <-]; apply steps_refl|discriminate].
  destruct (negb (checkOperands a b)); [intros [= <- <-]; apply steps_refl|].
  destruct (dyn_cast_ConstantInt_getValue _) as [c|]; [|discriminate].
  apply forEachUse_steps.
Qed.

Lemma visit_steps (F F' : Function) (K : ident) (rm rm' : list ident) :
  visit F K rm = Some (F', rm') -> steps (F, rm) (F', rm').
Proof.
  unfold visit.
  destruct (algebraicIdentity F K) as [[F1 m1]|] eqn:E1; [|discriminate].
  apply algebraicIdentity_steps with (rm := rm) in E1.
  destruct m1.
  - intros H. eapply steps_trans; [exact E1|].
    eapply multiInstructionOptimization_steps. exact H.
  - destruct (strengthReduction F1 K) as [[F2 m2]|] eqn:E2; [|discriminate].
    apply strengthReduction_steps with (rm := rm) in E2.
    intros H. eapply steps_trans; [exact E1|].
    eapply steps_trans; [exact E2|].
    eapply multiInstructionOptimization_steps. exact H.
Qed.

Lemma scan_steps (bi : nat) (fuel : nat) :
  forall F cur rm F1 rm1,
    scan fuel F bi cur rm = Returns (F1, rm1) -> steps (F, rm) (F1, rm1).
Proof.
  induction fuel as [|fuel IH]; intros F cur rm F1 rm1;
    destruct cur as [K|]; simpl; try discriminate;
    try (intros [= <- <-]; apply steps_refl).
  destruct (visit F K rm) as [[F' rm']|] eqn:EV; [|discriminate].
  intros H. eapply steps_trans; [eapply visit_steps; exact EV|].
  eapply IH. exact H.
Qed.

(** ** What a run keeps and what it erases *)

Lemma listedArithmetic_nil (F : Function) : listedArithmetic F [].
Proof. intros k []. Qed.

(** X8 -- A run of [runOnBasicBlock] that returns erases only [add], [sub],
    [mul] and [sdiv] instructions, and changes the opcode of no instruction:
    an instruction of the function is either still there afterwards, with
    the opcode it had (a [ret], [call] or [store] always is), or it is gone
    and was one of these four. *)
Theorem runOnBasicBlock_erases_only_arithmetic (F F' : Function) (bi : nat)
  (b : bool) (k : ident) (I : Instruction) :
  runOnBasicBlock F bi = Returns (F', b) ->
  getInst F k = Some I ->
  (exists I', getInst F' k = Some I' /\ opcodeOf I' = opcodeOf I)
  \/ (getInst F' k = None
      /\ exists opc, opcodeOf I = Some opc /\ erasableOp opc = true).
Proof.
  unfold runOnBasicBlock.
  destruct (scan _ F bi _ []) as [[F1 rm]| |] eqn:ES; try discriminate.
  destruct (eraseAll F1 rm) as [F2|] eqn:EE; [|discriminate].
  intros [= <- _] HI. apply eraseAll_without in EE. subst F2.
  apply scan_steps in ES.
  destruct (steps_keeps_opcode _ _ ES k I HI) as [I1 [H1 E1]]. simpl in H1.
  pose proof (steps_listedArithmetic _ _ ES (listedArithmetic_nil F)) as HQ.
  simpl in HQ.
  destruct (in_dec Nat.eq_dec k rm) as [Hin|Hout].
  - right. split.
    + apply getInst_None. intros Hk. apply idents_without in Hk.
      now destruct Hk.
    + destruct (HQ k Hin) as [opc [a [c [HI1 He]]]].
      exists opc. split; [|exact He].
      rewrite <- E1. rewrite HI1 in H1. injection H1 as <-. reflexivity.
  - left. exists I1. split; [|exact E1].
    now rewrite getInst_without.
Qed.

Lemma runOnBasicBlock_erases_only_arithmetic_witness :
  runOnBasicBlock three_rules 0 = Returns (three_rules_reduced, true)
  /\ getInst three_rules 5 = Some (ret (InstResult 4))
  /\ ((exists I', getInst three_rules_reduced 5 = Some I'
                  /\ opcodeOf I' = opcodeOf (ret (InstResult 4)))
      \/ (getInst three_rules_reduced 5 = None
          /\ exists opc, opcodeOf (ret (InstResult 4)) = Some opc
                         /\ erasableOp opc = true)).
Proof.
  split; [reflexivity|]. split; [reflexivity|].
  apply (runOnBasicBlock_erases_only_arithmetic
           three_rules three_rules_reduced 0 true 5 (ret (InstResult 4)));
    reflexivity.
Defined.

Lemma length_without (rm : list ident) (F : Function) :
  length (without rm F) = length F.
Proof. unfold without. apply length_map. Qed.

Lemma runOnBasicBlock_length (F F' : Function) (bi : nat) (b : bool) :
  runOnBasicBlock F bi = Returns (F', b) -> length F' = length F.
Proof.
  unfold runOnBasicBlock.
  destruct (scan _ F bi _ []) as [[F1 rm]| |] eqn:ES; try discriminate.
  destruct (eraseAll F1 rm) as [F2|] eqn:EE; [|discriminate].
  intros [= <- _]. apply eraseAll_without in EE. subst F2.
  apply scan_steps, steps_length in ES. simpl in ES.
  now rewrite length_without.
Qed.

Lemma runOnBlocks_length (n : nat) :
  forall bi F t F' b,
    runOnBlocks n bi F t = Returns (F', b) -> length F' = length F.
Proof.
  induction n as [|n IH]; simpl; intros bi F t F' b.
  - now intros [= <- _].
  - destruct (runOnBasicBlock F bi) as [[F1 b1]| |] eqn:E; try discriminate.
    intros H. apply IH in H. apply runOnBasicBlock_length in E. congruence.
Qed.

(** X9 -- The pass creates and deletes no basic block: a function comes
    back from [runOnFunction] with as many blocks as it had, so the block
    numbers the loop of the driver goes through stay valid. *)
Theorem runOnFunction_keeps_block_count (F F' : Function) (b : bool) :
  runOnFunction F = Returns (F', b) -> length F' = length F.
Proof. apply runOnBlocks_length. Qed.

Lemma runOnFunction_keeps_block_count_witness :
  runOnFunction three_rules = Returns (three_rules_reduced, true)
  /\ length three_rules_reduced = length three_rules.
Proof.
  split; [reflexivity|].
  apply (runOnFunction_keeps_block_count three_rules three_rules_reduced true).
  reflexivity.
Defined.

(** ** When the erase phase is defined *)

Lemma eraseAll_Some (rm : list ident) :
  forall F, NoDup rm -> incl rm (idents F) ->
            eraseAll F rm = Some (without rm F).
Proof.
  induction rm as [|i rm IH]; simpl; intros F Hnd Hin.
  - now rewrite without_nil.
  - inversion Hnd as [|x l Hi Hnd']; subst.
    assert (Hlive : isLive F i = true).
    { apply isLive_In. apply Hin. now left. }
    rewrite Hlive, <- without_cons. apply IH; [exact Hnd'|].
    intros k Hk.
    pose proof (without_cons i [] F) as E. rewrite without_nil in E.
    rewrite E. apply idents_without. split.
    + apply Hin. now right.
    + intros [->|[]]. contradiction.
Qed.

(** X12 -- After the scan the erase phase goes through exactly when no
    instruction was put on the removal list twice: then the run returns the
    function without the listed instructions; with a repetition an
    instruction is erased a second time and the run is undefined. *)
Theorem erase_phase_defined_iff_no_repetition (F F1 : Function) (bi : nat)
  (toRemove : list ident) :
  scan (scanFuel F bi) F bi (front (getBlock F bi)) []
  = Returns (F1, toRemove) ->
  (NoDup toRemove ->
   runOnBasicBlock F bi = Returns (without toRemove F1, true))
  /\ (~ NoDup toRemove -> runOnBasicBlock F bi = Undefined).
Proof.
  intros ES. unfold runOnBasicBlock. rewrite ES.
  pose proof (scan_inv F bi _ _ _ _ _ _ (scanInv_start F) ES) as Hinv.
  split.
  - intros Hnd.
    rewrite (eraseAll_Some toRemove F1 Hnd (inv_live _ _ _ Hinv)).
    reflexivity.
  - intros Hdup.
    destruct (eraseAll F1 toRemove) as [F2|] eqn:EE; [|reflexivity].
    exfalso. apply Hdup. eapply eraseAll_NoDup. exact EE.
Qed.

Lemma erase_phase_defined_iff_no_repetition_witness :
  scan (scanFuel sdiv_then_mul_by_3 0) sdiv_then_mul_by_3 0
       (front (getBlock sdiv_then_mul_by_3 0)) []
  = Returns (sdiv_then_mul_by_3_scanned, [2; 2])
  /\ (NoDup [2; 2] ->
      runOnBasicBlock sdiv_then_mul_by_3 0
      = Returns (without [2; 2] sdiv_then_mul_by_3_scanned, true))
  /\ (~ NoDup [2; 2] -> runOnBasicBlock sdiv_then_mul_by_3 0 = Undefined).
Proof.
  split; [reflexivity|].
  apply (erase_phase_defined_iff_no_repetition
           sdiv_then_mul_by_3 sdiv_then_mul_by_3_scanned 0 [2; 2]).
  reflexivity.
Defined.

(** ** One rule in a visit *)

Lemma uses_nil (F : Function) (i : ident) :
  ~ references F i -> uses F i = [].
Proof.
  intros H. destruct (uses F i) as [|J l] eqn:E; [reflexivity|].
  exfalso. apply H.
  assert (HJ : In J (uses F i)) by (rewrite E; now left).
  apply In_uses in HJ. destruct HJ as [inst [Hin Hop]].
  unfold references. eapply In_allOperands; eassumption.
Qed.

Lemma replaceAllUsesWith_uses (F F' : Function) (old : ident) (new : Value) :
  replaceAllUsesWith F old new = Some F' -> uses F' old = [].
Proof.
  intros H. apply replaceAllUsesWith_Some in H. destruct H as [Hn ->].
  apply uses_nil. intros Hr.
  apply references_redirect in Hr; [|exact Hn]. now destruct Hr.
Qed.

Lemma algebraicIdentity_result (F F' : Function) (K : ident) (m : bool) :
  algebraicIdentity F K = Some (F', m) ->
  if m then uses F' K = [] else F' = F.
Proof.
  unfold algebraicIdentity.
  destruct (getInst F K) as [[opc a b|ops]|]; [| |discriminate].
  - destruct (negb (checkOperands a b)); [now intros [= <- <-]|].
    destruct (dyn_cast_ConstantInt_getValue _) as [c|]; [|discriminate].
    simpl.
    match goal with |- context [if ?t then _ else _] => destruct t end.
    + destruct (replaceAllUsesWith F K _) as [F1|] eqn:ER; [|discriminate].
      simpl. intros [= <- <-]. eapply replaceAllUsesWith_uses. exact ER.
    + now intros [= <- <-].
  - now intros [= <- <-].
Qed.

Lemma strengthReduction_result (F F' : Function) (K : ident) (m : bool) :
  strengthReduction F K = Some (F', m) ->
  if m then uses F' K = [] else F' = F.
Proof.
  unfold strengthReduction.
  destruct (getInst F K) as [[opc a b|ops]|]; [| |discriminate].
  - destruct (negb (checkOperands a b)); [now intros [= <- <-]|].
    destruct (negb (opc_eqb opc Mul) && negb (opc_eqb opc SDiv));
      [now intros [= <- <-]|].
    destruct (dyn_cast_ConstantInt_getValue _) as [c|]; [|discriminate].
    simpl.
    destruct (CInt.shl_one _) as [pow|]; [|discriminate]. simpl.
    destruct (APInt.ugt (APInt.abs _) 1); [now intros [= <- <-]|].
    destruct (negb (opc_eqb opc Mul) && APInt.ne_u64 _ 0);
      [now intros [= <- <-]|].
    destruct (opc_eqb opc Mul && APInt.ne_u64 _ 0).
    + destruct (replaceAllUsesWith _ K _) as [F3|] eqn:ER; [|discriminate].
      simpl. intros [= <- <-]. eapply replaceAllUsesWith_uses. exact ER.
    + destruct (replaceAllUsesWith _ K _) as [F3|] eqn:ER; [|discriminate].
      simpl. intros [= <- <-]. eapply replaceAllUsesWith_uses. exact ER.
  - now intros [= <- <-].
Qed.

Lemma multiInstructionOptimization_no_use (F F' : Function) (K : ident)
  (rm rm' : list ident) :
  uses F K = [] ->
  multiInstructionOptimization F K rm = Some (F', rm') ->
  F' = F /\ rm' = rm.
Proof.
  intros Hu. unfold multiInstructionOptimization. rewrite Hu.
  destruct (getInst F K) as [[opc a b|ops]|]; [| |discriminate].
  - destruct (negb (checkOperands a b)); [now intros [= <- <-]|].
    destruct (dyn_cast_ConstantInt_getValue _) as [c|]; [|discriminate].
    simpl. now intros [= <- <-].
  - now intros [= <- <-].
Qed.

(** X2 -- A visit that returns applies one rule only.  Either the Algebraic
    Identity Rule matched, or it did not and the Strength Reduction Rule
    matched, and in both cases the instruction is left without a use, it
    alone is put on the removal list and the cancellation rule finds nothing
    to do; or neither matched, the function is as it was, and the visit is
    the cancellation rule. *)
Theorem visit_applies_one_rule (F F' : Function) (K : ident)
  (rm rm' : list ident) :
  visit F K rm = Some (F', rm') ->
  (algebraicIdentity F K = Some (F', true)
   /\ rm' = rm ++ [K] /\ uses F' K = [])
  \/ (algebraicIdentity F K = Some (F, false)
      /\ strengthReduction F K = Some (F', true)
      /\ rm' = rm ++ [K] /\ uses F' K = [])
  \/ (algebraicIdentity F K = Some (F, false)
      /\ strengthReduction F K = Some (F, false)
      /\ multiInstructionOptimization F K rm = Some (F', rm')).
Proof.
  unfold visit.
  destruct (algebraicIdentity F K) as [[F1 i]|] eqn:EA; [|discriminate].
  pose proof (algebraicIdentity_result _ _ _ _ EA) as HA. simpl.
  destruct i.
  - simpl. intros HM.
    destruct (multiInstructionOptimization_no_use _ _ _ _ _ HA HM)
      as [-> ->].
    left. repeat split; assumption.
  - subst F1.
    destruct (strengthReduction F K) as [[F2 m]|] eqn:ES; [|discriminate].
    pose proof (strengthReduction_result _ _ _ _ ES) as HS. simpl.
    destruct m.
    + intros HM.
      destruct (multiInstructionOptimization_no_use _ _ _ _ _ HS HM)
        as [-> ->].
      right. left. repeat split; assumption.
    + subst F2. intros HM. right. right. repeat split; assumption.
Qed.

Lemma visit_applies_one_rule_witness :
  visit mul_by_8 1 [] = Some (mul_by_8_scanned, [1])
  /\ ((algebraicIdentity mul_by_8 1 = Some (mul_by_8_scanned, true)
       /\ [1] = [] ++ [1] /\ uses mul_by_8_scanned 1 = [])
      \/ (algebraicIdentity mul_by_8 1 = Some (mul_by_8, false)
          /\ strengthReduction mul_by_8 1 = Some (mul_by_8_scanned, true)
          /\ [1] = [] ++ [1] /\ uses mul_by_8_scanned 1 = [])
      \/ (algebraicIdentity mul_by_8 1 = Some (mul_by_8, false)
          /\ strengthReduction mul_by_8 1 = Some (mul_by_8, false)
          /\ multiInstructionOptimization mul_by_8 1 []
             = Some (mul_by_8_scanned, [1]))).
Proof.
  split; [reflexivity|].
  apply (visit_applies_one_rule mul_by_8 mul_by_8_scanned 1 [] [1]).
  reflexivity.
Defined.

(** ** What the cancellation rule marks *)

Lemma opcodeOf_replaceInInst (old : ident) (new : Value) (I : Instruction) :
  opcodeOf (replaceInInst old new I) = opcodeOf I.
Proof. now destruct I. Qed.

Lemma opcodeOf_redirect (old : ident) (new : Value) (F : Function)
  (k : ident) :
  option_map opcodeOf (getInst (redirect old new F) k)
  = option_map opcodeOf (getInst F k).
Proof.
  rewrite getInst_redirect. destruct (getInst F k) as [I|]; simpl;
    [|reflexivity].
  now rewrite opcodeOf_replaceInInst.
Qed.

Lemma forEachUse_marks (F : Function) (I : ident) (c : APInt.t) :
  forall us G rm G' rm',
    (forall k, option_map opcodeOf (getInst G k)
               = option_map opcodeOf (getInst F k)) ->
    forEachUse I c us (G, rm) = Some (G', rm') ->
    exists l,
      rm' = rm ++ l /\ (l = [] -> G' = G)
      /\ forall J, In J l ->
           In J us
           /\ exists opI opJ,
                option_map opcodeOf (getInst F I) = Some (Some opI)
                /\ option_map opcodeOf (getInst F J) = Some (Some opJ)
                /\ oppositeOps opI opJ = true.
Proof.
  induction us as [|u us IH]; simpl; intros G rm G' rm' Hop.
  - intros [= <- <-]. exists []. rewrite app_nil_r.
    split; [reflexivity|]. split; [reflexivity|]. intros J [].
  - destruct (cancelUse I c (G, rm) u) as [[G1 rm1]|] eqn:EC;
      [|discriminate]. simpl. intros HF.
    assert (Hsame : G1 = G -> rm1 = rm ->
               exists l1, rm' = rm ++ l1 /\ (l1 = [] -> G' = G)
                 /\ forall J, In J l1 -> In J (u :: us)
                   /\ exists opI opJ,
                        option_map opcodeOf (getInst F I) = Some (Some opI)
                        /\ option_map opcodeOf (getInst F J)
                           = Some (Some opJ)
                        /\ oppositeOps opI opJ = true).
    { intros -> ->. destruct (IH _ _ _ _ Hop HF) as [l [E [Hnil Hl]]].
      exists l. repeat split; try assumption.
      - right. now apply Hl.
      - now apply Hl. }
    unfold cancelUse in EC. simpl in EC.
    destruct (getInst G u) as [[opJ j0 j1|ops]|] eqn:EJ; [| |discriminate].
    + destruct (negb (checkOperands j0 j1));
        [injection EC as <- <-; now apply Hsame|].
      destruct (getInst G I) as [[opI i0 i1|ops]|] eqn:EI; try discriminate.
      destruct (oppositeOps opI opJ) eqn:Eopp;
        [|injection EC as <- <-; now apply Hsame].
      destruct (dyn_cast_ConstantInt_getValue _) as [cJ|]; [|discriminate].
      simpl in EC.
      destruct (APInt.eqb c cJ); [|injection EC as <- <-; now apply Hsame].
      destruct (replaceAllUsesWith G u _) as [G2|] eqn:ER; [|discriminate].
      simpl in EC. injection EC as <- <-.
      apply replaceAllUsesWith_Some in ER. destruct ER as [_ ->].
      assert (Hop2 : forall k,
                 option_map opcodeOf
                   (getInst
                      (redirect u (if isa_Constant i0 then i1 else i0) G) k)
                 = option_map opcodeOf (getInst F k)).
      { intros k. rewrite opcodeOf_redirect. apply Hop. }
      destruct (IH _ _ _ _ Hop2 HF) as [l [E [_ Hl]]].
      exists (u :: l). split; [|split].
      * rewrite E, <- app_assoc. reflexivity.
      * discriminate.
      * intros J [<-|HJ].
        -- split; [now left|]. exists opI, opJ.
           rewrite <- (Hop I), <- (Hop u), EI, EJ. simpl.
           repeat split; try reflexivity. exact Eopp.
        -- split; [right|]; now apply Hl.
    + injection EC as <- <-. now apply Hsame.
Qed.

(** X7 -- The cancellation rule inserts nothing and marks only users of
    the instruction it is applied to, each a binary operator whose opcode is
    the opposite of the instruction's ([add]/[sub], [mul]/[sdiv]); when it
    marks nothing the function is left as it was. *)
Theorem multiInstructionOptimization_marks_opposite_users (F F' : Function)
  (I : ident) (rm rm' : list ident) :
  multiInstructionOptimization F I rm = Some (F', rm') ->
  exists l,
    rm' = rm ++ l /\ idents F' = idents F /\ (l = [] -> F' = F)
    /\ forall J, In J l ->
         In J (uses F I)
         /\ exists opI opJ,
              option_map opcodeOf (getInst F I) = Some (Some opI)
              /\ option_map opcodeOf (getInst F J) = Some (Some opJ)
              /\ oppositeOps opI opJ = true.
Proof.
  intros HM.
  pose proof (multiInstructionOptimization_keeps _ _ _ _ _ HM) as [Hid _].
  revert HM. unfold multiInstructionOptimization.
  assert (Hnone : Some (F, rm) = Some (F', rm') ->
            exists l,
              rm' = rm ++ l /\ idents F' = idents F /\ (l = [] -> F' = F)
              /\ forall J, In J l ->
                   In J (uses F I)
                   /\ exists opI opJ,
                        option_map opcodeOf (getInst F I) = Some (Some opI)
                        /\ option_map opcodeOf (getInst F J)
                           = Some (Some opJ)
                        /\ oppositeOps opI opJ = true).
  { intros [= <- <-]. exists []. rewrite app_nil_r.
    split; [reflexivity|]. split; [reflexivity|]. split; [reflexivity|].
    intros J []. }
  destruct (getInst F I) as [[opc a b|ops]|] eqn:EI;
    [| exact Hnone | discriminate].
  destruct (negb (checkOperands a b)); [exact Hnone|].
  destruct (dyn_cast_ConstantInt_getValue _) as [c|]; [|discriminate].
  simpl. intros HF.
  destruct (forEachUse_marks F I c _ _ _ _ _ (fun k => eq_refl) HF)
    as [l [E [Hnil Hl]]].
  exists l. rewrite EI in Hl. repeat split; try assumption; now apply Hl.
Qed.

Lemma multiInstructionOptimization_marks_opposite_users_witness :
  multiInstructionOptimization add_then_sub_same_slot 1 []
  = Some (add_then_sub_same_slot_scanned, [2])
  /\ exists l,
       [2] = [] ++ l
       /\ idents add_then_sub_same_slot_scanned
          = idents add_then_sub_same_slot
       /\ (l = [] ->
           add_then_sub_same_slot_scanned = add_then_sub_same_slot)
       /\ forall J, In J l ->
            In J (uses add_then_sub_same_slot 1)
            /\ exists opI opJ,
                 option_map opcodeOf (getInst add_then_sub_same_slot 1)
                 = Some (Some opI)
                 /\ option_map opcodeOf (getInst add_then_sub_same_slot J)
                    = Some (Some opJ)
                 /\ oppositeOps opI opJ = true.
Proof.
  split; [reflexivity|].
  apply (multiInstructionOptimization_marks_opposite_users
           add_then_sub_same_slot _ 1 [] [2]).
  reflexivity.
Defined.

(** ** Where a visit puts what it inserts *)

Lemma length_totalWeight (S : list (ident * nat)) :
  (forall k w, In (k, w) S -> 0 < w) -> length S <= totalWeight S.
Proof.
  unfold totalWeight. induction S as [|[k w] S IH]; simpl; intros H;
    [lia|].
  assert (0 < w) by (apply (H k); now left).
  assert (length S <= list_sum (map snd S)).
  { apply IH. intros k' w' Hin. apply (H k'). now right. }
  lia.
Qed.

(** X3 -- A visit changes the order of nothing and inserts at most two
    instructions, directly behind the instruction it visits: what stands
    before it in the block and what stands after it stay in place. *)
Theorem visit_inserts_behind_instruction (F F' : Function) (K : ident)
  (rm rm' : list ident) (bi : nat) (pre post : list ident) :
  visit F K rm = Some (F', rm') -> NoDup (idents F) ->
  map fst (getBlock F bi) = pre ++ K :: post ->
  exists new,
    map fst (getBlock F' bi) = pre ++ K :: new ++ post /\ length new <= 2.
Proof.
  intros HV Hnd Hsplit.
  rewrite <- skeleton_idents in Hsplit.
  apply map_eq_app in Hsplit. destruct Hsplit as [spre [s2 [Hs [Hpre H2]]]].
  apply map_eq_cons in H2. destruct H2 as [[k wK] [spost [-> [Hk Hpost]]]].
  simpl in Hk. subst k.
  destruct (visit_layout _ _ _ _ _ bi _ _ _ HV Hnd Hs) as [snew [Hs' Hw]].
  exists (map fst snew). split.
  - rewrite <- skeleton_idents, Hs', map_app. simpl. rewrite map_app.
    now rewrite Hpre, Hpost.
  - rewrite length_map.
    assert (HwK : wK <= 3).
    { assert (Hin : In (K, wK) (skeleton (getBlock F bi))).
      { rewrite Hs. apply in_or_app. right. now left. }
      unfold skeleton in Hin. apply in_map_iff in Hin.
      destruct Hin as [[j [opc a b|ops]] [E _]]; simpl in E;
        injection E as _ <-; [destruct opc|]; simpl; lia. }
    assert (Hlen : length snew <= totalWeight snew).
    { apply length_totalWeight. intros k w Hin.
      apply (skeleton_weight_pos (getBlock F' bi) k). rewrite Hs'.
      apply in_or_app. right. right. apply in_or_app. now left. }
    lia.
Qed.

Lemma visit_inserts_behind_instruction_witness :
  visit mul_by_9 1 []
  = Some (mul_by_9_scanned, [1])
  /\ NoDup (idents mul_by_9)
  /\ map fst (getBlock mul_by_9 0) = [] ++ 1 :: [2]
  /\ exists new,
       map fst (getBlock mul_by_9_scanned 0)
       = [] ++ 1 :: new ++ [2]
       /\ length new <= 2.
Proof.
  assert (Hnd : NoDup (idents mul_by_9)).
  { repeat constructor; simpl; intuition discriminate. }
  split; [reflexivity|]. split; [exact Hnd|]. split; [reflexivity|].
  apply (visit_inserts_behind_instruction mul_by_9 _ 1 [] [1] 0 [] [2]);
    [reflexivity|exact Hnd|reflexivity].
Defined.

(** ** The driver *)

Lemma runOnFunctions_first (decls : list Function) :
  forall done F rest,
    Forall (fun D => D = []) decls -> F <> [] ->
    runOnFunctions done (decls ++ F :: rest)
    = match runOnFunction F with
      | Returns (F', _) => Returns (done ++ decls ++ F' :: rest, PA_none)
      | Undefined => Undefined
      | OutOfFuel => OutOfFuel
      end.
Proof.
  induction decls as [|D decls IH]; simpl; intros done F rest Hd HF.
  - destruct (runOnFunction F) as [[F' b]| |] eqn:E; try reflexivity.
    apply runOnFunction_returns_true in E; [|exact HF]. now subst b.
  - inversion Hd as [|x l HD Hd']; subst. simpl.
    rewrite IH by assumption.
    destruct (runOnFunction F) as [[F' b]| |]; try reflexivity.
    now rewrite <- app_assoc.
Qed.

(** X11 -- [run] passes the functions without a block untouched and deals
    with the first function that has one, and with no function behind it:
    it returns "none preserved" with that function rewritten and the rest
    as it came, or is undefined where the rewrite of that function is. *)
Theorem run_is_the_first_function_with_a_block (decls : list Function)
  (F : Function) (rest : list Function) :
  Forall (fun D => D = []) decls -> F <> [] ->
  run (decls ++ F :: rest)
  = match runOnFunction F with
    | Returns (F', _) => Returns (decls ++ F' :: rest, PA_none)
    | Undefined => Undefined
    | OutOfFuel => OutOfFuel
    end.
Proof.
  intros Hd HF. unfold run. now rewrite runOnFunctions_first.
Qed.

Lemma run_is_the_first_function_with_a_block_witness :
  Forall (fun D : Function => D = []) [[]; []]
  /\ mul_by_8 <> []
  /\ run ([[]; []] ++ mul_by_8 :: [add_zero; add_then_sub_other_slot])
     = match runOnFunction mul_by_8 with
       | Returns (F', _) =>
           Returns ([[]; []] ++ F' :: [add_zero; add_then_sub_other_slot],
                    PA_none)
       | Undefined => Undefined
       | OutOfFuel => OutOfFuel
       end.
Proof.
  assert (Hd : Forall (fun D : Function => D = []) [[]; []]).
  { repeat constructor. }
  assert (HF : mul_by_8 <> []) by discriminate.
  split; [exact Hd|]. split; [exact HF|].
  apply (run_is_the_first_function_with_a_block
           [[]; []] mul_by_8 [add_zero; add_then_sub_other_slot] Hd HF).
Defined.

Lemma runOnFunctions_all (todo : list Function) :
  forall done M',
    runOnFunctions done todo = Returns (M', PA_all)
    <-> (M' = done ++ todo /\ Forall (fun F => F = []) todo).
Proof.
  induction todo as [|F todo IH]; simpl; intros done M'.
  - rewrite app_nil_r. split.
    + intros [= <-]. split; [reflexivity|constructor].
    + now intros [-> _].
  - destruct F as [|B F].
    + change (runOnFunction []) with (Returns ([] : Function, false)).
      simpl. rewrite IH, <- app_assoc. simpl. split.
      * intros [-> H]. split; [reflexivity|]. now constructor.
      * intros [-> H]. split; [reflexivity|]. now inversion H.
    + split.
      * destruct (runOnFunction (B :: F)) as [[F' b]| |] eqn:E;
          try discriminate.
        apply runOnFunction_returns_true in E; [|discriminate].
        subst b. discriminate.
      * intros [_ H]. inversion H; discriminate.
Qed.

(** X10 -- [run] answers "all analyses preserved" exactly on a module in which
    no function has a block, and then hands the module back as it was. *)
Theorem run_preserves_all_iff_no_block (M M' : Module_) :
  run M = Returns (M', PA_all)
  <-> (M' = M /\ Forall (fun F => F = []) M).
Proof. unfold run. apply runOnFunctions_all. Qed.

(** ** Blocks the rules do not apply to *)

Lemma visit_not_mixed (F : Function) (K : ident) (I : Instruction)
  (rm : list ident) :
  getInst F K = Some I -> isMixed I = false -> visit F K rm = Some (F, rm).
Proof.
  intros HK Hm.
  unfold visit, algebraicIdentity, strengthReduction,
    multiInstructionOptimization.
  rewrite HK. destruct I as [opc a b|ops]; simpl in Hm.
  - rewrite Hm. simpl. rewrite HK, Hm. simpl. rewrite HK, Hm. reflexivity.
  - simpl. rewrite HK. simpl. rewrite HK. reflexivity.
Qed.

(** X13 -- A block in which no binary operator has exactly one integer
    constant among its two operands is out of reach of every rule: the run
    returns the function as it was (and says [true] all the same). *)
Theorem runOnBasicBlock_leaves_unmixed_block (F : Function) (bi : nat) :
  NoDup (idents F) ->
  (forall K I, In (K, I) (getBlock F bi) -> isMixed I = false) ->
  runOnBasicBlock F bi = Returns (F, true).
Proof.
  intros Hnd Hm.
  apply runOnBasicBlock_fullyReduced; [now apply NoDup_getBlock|].
  intros K HK rm. apply in_map_iff in HK. destruct HK as [[k I] [Hk Hin]].
  simpl in Hk. subst k.
  apply (visit_not_mixed F K I).
  - apply In_getInst; [exact Hnd|]. now apply (In_getBlock F bi).
  - now apply (Hm K).
Qed.

Lemma runOnBasicBlock_leaves_unmixed_block_witness :
  NoDup (idents unmixed_operators)
  /\ (forall K I, In (K, I) (getBlock unmixed_operators 0) ->
                  isMixed I = false)
  /\ runOnBasicBlock unmixed_operators 0 = Returns (unmixed_operators, true).
Proof.
  assert (Hnd : NoDup (idents unmixed_operators)).
  { repeat constructor; simpl; intuition discriminate. }
  assert (Hm : forall K I, In (K, I) (getBlock unmixed_operators 0) ->
                           isMixed I = false).
  { intros K I [H|[H|[H|[H|[]]]]]; injection H as _ <-; reflexivity. }
  split; [exact Hnd|]. split; [exact Hm|].
  apply (runOnBasicBlock_leaves_unmixed_block unmixed_operators 0 Hnd Hm).
Defined.

(** ** The general lemmas at work *)

Lemma run_fuel_witness :
  Forall (fun F => NoDup (idents F)) [[]; three_rules; mul_by_9]
  /\ run [[]; three_rules; mul_by_9] <> OutOfFuel.
Proof.
  assert (H : Forall (fun F => NoDup (idents F)) [[]; three_rules; mul_by_9]).
  { repeat constructor; simpl; intuition discriminate. }
  split; [exact H|]. apply (run_fuel [[]; three_rules; mul_by_9] H).
Defined.

Lemma algebraicIdentity_on_variable_witness :
  getInst sub_zero_left 1 = Some (BinaryOperator Sub (i32 0) arg_x)
  /\ ((i32 0 = i32 0 /\ arg_x = arg_x) \/ (i32 0 = arg_x /\ arg_x = i32 0))
  /\ isa_Constant arg_x = false
  /\ arg_x <> InstResult 1
  /\ algebraicIdentity sub_zero_left 1
     = if identityPair Sub (APInt.mk 32 (APInt.clearUnusedBits 32 0))
       then Some (redirect 1 arg_x sub_zero_left, true)
       else Some (sub_zero_left, false).
Proof.
  assert (Hne : arg_x <> InstResult 1) by discriminate.
  split; [reflexivity|]. split; [left; split; reflexivity|].
  split; [reflexivity|]. split; [exact Hne|].
  apply (algebraicIdentity_on_variable sub_zero_left 1 Sub (i32 0) arg_x arg_x
           (APInt.mk 32 (APInt.clearUnusedBits 32 0)) eq_refl
           (or_introl (conj eq_refl eq_refl)) eq_refl Hne).
Defined.

Lemma strengthReduction_sdiv_matched_witness :
  getInst sdiv_by_8 1 = Some (BinaryOperator SDiv arg_x (i32 8))
  /\ strengthReduction sdiv_by_8 1 = Some (sdiv_by_8_scanned, true)
  /\ exists k,
       (0 <= k <= 31)%Z
       /\ (k < APInt.BitWidth (APInt.mk 32 (APInt.clearUnusedBits 32 8)))%Z
       /\ (APInt.VAL (APInt.mk 32 (APInt.clearUnusedBits 32 8)) = 2 ^ k)%Z
       /\ APInt.getSExtValue (APInt.mk 32 (APInt.clearUnusedBits 32 8))
          = (if (k =? APInt.BitWidth (APInt.mk 32 (APInt.clearUnusedBits 32 8))
                      - 1)%Z
             then (- 2 ^ k)%Z else (2 ^ k)%Z).
Proof.
  split; [reflexivity|]. split; [reflexivity|].
  apply (strengthReduction_sdiv_matched sdiv_by_8 sdiv_by_8_scanned 1
           arg_x (i32 8) arg_x (APInt.mk 32 (APInt.clearUnusedBits 32 8))).
  - reflexivity.
  - right. split; reflexivity.
  - reflexivity.
  - simpl. lia.
  - vm_compute. split; [discriminate|reflexivity].
  - reflexivity.
Defined.

Lemma strengthReduction_small_constant_witness :
  getInst mul_by_9 1 = Some (BinaryOperator Mul arg_x (i32 9))
  /\ (32 <= APInt.BitWidth (APInt.mk 32 (APInt.clearUnusedBits 32 9)))%Z
  /\ (2 <= APInt.VAL (APInt.mk 32 (APInt.clearUnusedBits 32 9)) < 2 ^ 30)%Z
  /\ strengthReduction mul_by_9 1 = Some (mul_by_9_scanned, true).
Proof.
  assert (Hw : (32 <= APInt.BitWidth
                        (APInt.mk 32 (APInt.clearUnusedBits 32 9)))%Z).
  { simpl. lia. }
  assert (Hc : (2 <= APInt.VAL (APInt.mk 32 (APInt.clearUnusedBits 32 9))
                < 2 ^ 30)%Z).
  { vm_compute. split; [discriminate|reflexivity]. }
  split; [reflexivity|]. split; [exact Hw|]. split; [exact Hc|].
  rewrite (strengthReduction_small_constant mul_by_9 1 Mul arg_x (i32 9)
             arg_x (APInt.mk 32 (APInt.clearUnusedBits 32 9)) eq_refl
             (or_intror (conj eq_refl eq_refl)) eq_refl
             (or_introl eq_refl) Hw Hc).
  reflexivity.
Defined.

(** ** Operands that stay inside the function *)

Lemma runOnBasicBlock_closed (F F' : Function) (bi : nat) (b : bool) :
  runOnBasicBlock F bi = Returns (F', b) -> closed F -> closed F'.
Proof.
  unfold runOnBasicBlock.
  destruct (scan _ F bi _ []) as [[F1 rm]| |] eqn:ES; try discriminate.
  destruct (eraseAll F1 rm) as [F2|] eqn:EE; [|discriminate].
  intros [= <- _] HF.
  pose proof (scan_inv F bi _ _ _ _ _ _ (scanInv_start F) ES)
    as [_ _ Hunused Hclosed].
  apply eraseAll_without in EE. subst F2.
  intros k Hk. apply references_without in Hk.
  apply idents_without. split; [now apply Hclosed|now apply Hunused].
Qed.

Lemma runOnBlocks_closed (n : nat) :
  forall bi F t F' b,
    runOnBlocks n bi F t = Returns (F', b) -> closed F -> closed F'.
Proof.
  induction n as [|n IH]; simpl; intros bi F t F' b.
  - now intros [= <- _].
  - destruct (runOnBasicBlock F bi) as [[F1 b1]| |] eqn:E; try discriminate.
    intros H HF. eapply IH; [exact H|].
    eapply runOnBasicBlock_closed; eassumption.
Qed.

Lemma runOnFunctions_closed (todo : list Function) :
  forall done M' pa,
    runOnFunctions done todo = Returns (M', pa) ->
    Forall closed done -> Forall closed todo -> Forall closed M'.
Proof.
  induction todo as [|F todo IH]; simpl; intros done M' pa.
  - now intros [= <- _].
  - destruct (runOnFunction F) as [[F' b]| |] eqn:E; try discriminate.
    intros H Hd Ht. inversion Ht as [|x l HF Ht']; subst.
    assert (HF' : closed F').
    { eapply runOnBlocks_closed; [exact E|exact HF]. }
    destruct b.
    + injection H as <- _. apply Forall_app. split; [exact Hd|].
      now constructor.
    + eapply IH; [exact H| |exact Ht'].
      apply Forall_app. split; [exact Hd|]. now constructor.
Qed.

(** X14 -- The pass leaves no dangling operand: in a module whose functions
    only have operands that name instructions of the same function, this is
    still so when [run] returns, although instructions were erased. *)
Theorem run_keeps_operands_inside (M M' : Module_) (pa : PreservedAnalyses) :
  run M = Returns (M', pa) -> Forall closed M -> Forall closed M'.
Proof.
  intros H HM. unfold run in H.
  eapply runOnFunctions_closed; [exact H|constructor|exact HM].
Qed.

Lemma run_keeps_operands_inside_witness :
  run [[]; three_rules; mul_by_9]
  = Returns ([[]; three_rules_reduced; mul_by_9], PA_none)
  /\ Forall closed [[]; three_rules; mul_by_9]
  /\ Forall closed [[]; three_rules_reduced; mul_by_9].
Proof.
  assert (H : Forall closed [[]; three_rules; mul_by_9]).
  { repeat (apply Forall_cons; [|]); [| | |apply Forall_nil];
      intros k Hk; unfold references in Hk; simpl in Hk;
      repeat (destruct Hk as [Hk|Hk];
              [try discriminate; injection Hk as <-; simpl; tauto|]);
      contradiction. }
  split; [reflexivity|]. split; [exact H|].
  apply (run_keeps_operands_inside [[]; three_rules; mul_by_9]
           [[]; three_rules_reduced; mul_by_9] PA_none eq_refl H).
Defined.

(** ** Opcodes no rule applies to *)

Lemma oppositeOps_erasable_left (opI opJ : BinaryOps) :
  erasableOp opI = false -> oppositeOps opI opJ = false.
Proof. destruct opI; simpl; intros H; try discriminate; reflexivity. Qed.

Lemma forEachUse_other_opcode (F : Function) (I : ident) (opc : BinaryOps)
  (a b : Value) (c : APInt.t) :
  getInst F I = Some (BinaryOperator opc a b) -> erasableOp opc = false ->
  forall us rm,
    (forall J, In J us -> In J (idents F)) ->
    forEachUse I c us (F, rm) = Some (F, rm).
Proof.
  intros HI Hopc. induction us as [|u us IH]; simpl; intros rm Hin;
    [reflexivity|].
  assert (EC : cancelUse I c (F, rm) u = Some (F, rm)).
  { unfold cancelUse. simpl.
    destruct (getInst F u) as [[opJ j0 j1|ops]|] eqn:EJ.
    - destruct (negb (checkOperands j0 j1)); [reflexivity|].
      rewrite HI, (oppositeOps_erasable_left opc opJ Hopc). reflexivity.
    - reflexivity.
    - exfalso. apply getInst_None in EJ. apply EJ, Hin. now left. }
  rewrite EC. simpl. apply IH. intros J HJ. apply Hin. now right.
Qed.

(** X15 -- The rules rewrite [add], [sub], [mul] and [sdiv] only.  The
    visit of a binary operator with another opcode ([shl] and [ashr], which
    strength reduction inserts, among them) changes nothing, whatever uses
    the instruction has, provided its first operand is not a constant that
    is no integer (there the cast of the constant yields null). *)
Theorem visit_skips_other_opcodes (F : Function) (K : ident)
  (opc : BinaryOps) (a b : Value) (rm : list ident) :
  getInst F K = Some (BinaryOperator opc a b) ->
  erasableOp opc = false ->
  (forall n, a <> OtherConstant n) ->
  visit F K rm = Some (F, rm).
Proof.
  intros HK Hopc Ha.
  destruct (checkOperands a b) eqn:Hm;
    [|now apply (visit_not_mixed F K (BinaryOperator opc a b))].
  assert (Hc : exists c,
             dyn_cast_ConstantInt_getValue (if isa_Constant a then a else b)
             = Some c).
  { unfold checkOperands in Hm.
    destruct a as [ca|n|n|i]; destruct b as [cb|m|m|j]; simpl in *;
      try discriminate; try (now eexists); now destruct (Ha n). }
  destruct Hc as [c Hc].
  assert (HA : algebraicIdentity F K = Some (F, false)).
  { unfold algebraicIdentity. rewrite HK, Hm. simpl. rewrite Hc. simpl.
    destruct opc; simpl in *; try discriminate; reflexivity. }
  assert (HS : strengthReduction F K = Some (F, false)).
  { unfold strengthReduction. rewrite HK, Hm. simpl.
    destruct opc; simpl in *; try discriminate; reflexivity. }
  unfold visit. rewrite HA. simpl. rewrite HS. simpl.
  unfold multiInstructionOptimization. rewrite HK, Hm. simpl.
  rewrite Hc. simpl.
  apply (forEachUse_other_opcode F K opc a b c HK Hopc).
  intros J HJ. apply In_uses in HJ. destruct HJ as [inst [Hin _]].
  unfold idents. change J with (fst (J, inst)). now apply in_map.
Qed.

Lemma visit_skips_other_opcodes_witness :
  getInst mul_by_8_scanned 3 = Some (BinaryOperator Shl arg_x (i32 3))
  /\ erasableOp Shl = false
  /\ (forall n, arg_x <> OtherConstant n)
  /\ visit mul_by_8_scanned 3 [1] = Some (mul_by_8_scanned, [1]).
Proof.
  assert (Ha : forall n, arg_x <> OtherConstant n) by discriminate.
  split; [reflexivity|]. split; [reflexivity|]. split; [exact Ha|].
  apply (visit_skips_other_opcodes mul_by_8_scanned 3 Shl arg_x (i32 3) [1]
           eq_refl eq_refl Ha).
Defined.

(** ** Where the first two rules are undefined *)

Lemma algebraicIdentity_mixed (F : Function) (K : ident) (opc : BinaryOps)
  (a b : Value) :
  getInst F K = Some (BinaryOperator opc a b) ->
  checkOperands a b = true ->
  algebraicIdentity F K
  = match dyn_cast_ConstantInt_getValue (if isa_Constant a then a else b) with
    | None => None
    | Some c =>
        if identityPair opc c
        then match replaceAllUsesWith F K (if isa_Constant a then b else a) with
             | Some F' => Some (F', true)
             | None => None
             end
        else Some (F, false)
    end.
Proof.
  intros HK Hm. unfold algebraicIdentity. rewrite HK, Hm. simpl.
  destruct (dyn_cast_ConstantInt_getValue _) as [c|]; [|reflexivity].
  simpl. rewrite identityPair_test. reflexivity.
Qed.

Lemma visit_undefined_shift (F : Function) (K : ident)
  (opc : BinaryOps) (a b v : Value) (c : APInt.t) (rm : list ident) :
  getInst F K = Some (BinaryOperator opc a b) ->
  opc = Mul \/ opc = SDiv ->
  (a = ConstantInt c /\ b = v) \/ (a = v /\ b = ConstantInt c) ->
  isa_ConstantInt v = false ->
  APInt.VAL c <> 1%Z ->
  CInt.shl_one (CInt.of_unsigned (APInt.nearestLogBase2 c)) = None ->
  strengthReduction F K = None /\ visit F K rm = None.
Proof.
  intros HK Hopc Hab Hv Hc Hlog.
  assert (Hm : checkOperands a b = true).
  { unfold checkOperands.
    destruct Hab as [[-> ->]|[-> ->]]; simpl; rewrite Hv; reflexivity. }
  assert (Hsel : dyn_cast_ConstantInt_getValue
                   (if isa_ConstantInt a then a else b) = Some c).
  { destruct Hab as [[-> ->]|[-> ->]]; simpl; [|rewrite Hv]; reflexivity. }
  assert (HS : strengthReduction F K = None).
  { unfold strengthReduction. rewrite HK, Hm. simpl.
    replace (negb (opc_eqb opc Mul) && negb (opc_eqb opc SDiv)) with false
      by (destruct Hopc as [->| ->]; reflexivity).
    rewrite Hsel. simpl. rewrite Hlog. reflexivity. }
  split; [exact HS|].
  unfold visit. rewrite (algebraicIdentity_mixed F K opc a b HK Hm).
  destruct (dyn_cast_ConstantInt_getValue (if isa_Constant a then a else b))
    as [c'|] eqn:Ec'; [|reflexivity].
  assert (c' = c).
  { destruct Hab as [[-> ->]|[-> ->]]; simpl in Ec'.
    - now injection Ec' as <-.
    - destruct v; simpl in *; try discriminate; now injection Ec' as <-. }
  subst c'.
  replace (identityPair opc c) with false.
  - simpl. rewrite HS. reflexivity.
  - symmetry. unfold identityPair, APInt.eq_u64.
    destruct Hopc as [->| ->]; now apply Z.eqb_neq.
Qed.

(** X16 -- A [mul] or [sdiv] by the integer constant 0 takes the pass into
    undefined behaviour.  The constant is not the identity, so strength
    reduction is tried; the nearest logarithm of 0 is [UINT32_MAX], -1 as
    an [int], and [1 << -1] is undefined.  This is so in either slot and
    for every width. *)
Theorem visit_mul_or_sdiv_by_zero_undefined (F : Function) (K : ident)
  (opc : BinaryOps) (a b v : Value) (c : APInt.t) (rm : list ident) :
  getInst F K = Some (BinaryOperator opc a b) ->
  opc = Mul \/ opc = SDiv ->
  (a = ConstantInt c /\ b = v) \/ (a = v /\ b = ConstantInt c) ->
  isa_ConstantInt v = false ->
  APInt.VAL c = 0%Z ->
  strengthReduction F K = None /\ visit F K rm = None.
Proof.
  intros HK Hopc Hab Hv Hc.
  apply (visit_undefined_shift F K opc a b v c rm HK Hopc Hab Hv).
  - rewrite Hc. discriminate.
  - unfold APInt.nearestLogBase2. rewrite Hc.
    destruct (APInt.BitWidth c =? 1)%Z; reflexivity.
Qed.

Lemma visit_mul_or_sdiv_by_zero_undefined_witness :
  getInst mul_by_0 1 = Some (BinaryOperator Mul arg_x (i32 0))
  /\ APInt.VAL (APInt.mk 32 (APInt.clearUnusedBits 32 0)) = 0%Z
  /\ strengthReduction mul_by_0 1 = None
  /\ visit mul_by_0 1 [] = None.
Proof.
  split; [reflexivity|]. split; [reflexivity|].
  apply (visit_mul_or_sdiv_by_zero_undefined mul_by_0 1 Mul arg_x (i32 0)
           arg_x (APInt.mk 32 (APInt.clearUnusedBits 32 0)) []).
  - reflexivity.
  - left. reflexivity.
  - right. split; reflexivity.
  - reflexivity.
  - reflexivity.
Defined.

(** X17 -- A [mul] or [sdiv] by a constant from 2^32 on, as a 64-bit
    operation can have, is undefined too: the nearest logarithm is 32 or
    more, and a 32-bit [int] is shifted by it. *)
Theorem visit_mul_or_sdiv_by_wide_constant_undefined (F : Function)
  (K : ident) (opc : BinaryOps) (a b v : Value) (c : APInt.t)
  (rm : list ident) :
  getInst F K = Some (BinaryOperator opc a b) ->
  opc = Mul \/ opc = SDiv ->
  (a = ConstantInt c /\ b = v) \/ (a = v /\ b = ConstantInt c) ->
  isa_ConstantInt v = false ->
  (APInt.BitWidth c <> 1)%Z ->
  (2 ^ 32 <= APInt.VAL c < 2 ^ 64)%Z ->
  strengthReduction F K = None /\ visit F K rm = None.
Proof.
  intros HK Hopc Hab Hv Hw Hc.
  apply (visit_undefined_shift F K opc a b v c rm HK Hopc Hab Hv).
  - change (2 ^ 32)%Z with 4294967296%Z in Hc. lia.
  - assert (Hlg : (32 <= Z.log2 (APInt.VAL c) < 64)%Z).
    { split.
      - apply Z.log2_le_pow2; lia.
      - apply Z.log2_lt_pow2; lia. }
    assert (Hn : (32 <= APInt.nearestLogBase2 c <= 64)%Z).
    { unfold APInt.nearestLogBase2, APInt.logBase2.
      apply Z.eqb_neq in Hw. rewrite Hw.
      replace (APInt.VAL c =? 0)%Z with false
        by (symmetry; apply Z.eqb_neq;
            change (2 ^ 32)%Z with 4294967296%Z in Hc; lia).
      destruct (Z.testbit (APInt.VAL c) (Z.log2 (APInt.VAL c) - 1));
        simpl; lia. }
    unfold CInt.of_unsigned, CInt.shl_one.
    replace (APInt.nearestLogBase2 c <? 2 ^ 31)%Z with true
      by (symmetry; apply Z.ltb_lt; change (2 ^ 31)%Z with 2147483648%Z; lia).
    replace (APInt.nearestLogBase2 c <? 31)%Z with false
      by (symmetry; apply Z.ltb_ge; lia).
    rewrite andb_false_r.
    replace (APInt.nearestLogBase2 c =? 31)%Z with false
      by (symmetry; apply Z.eqb_neq; lia).
    reflexivity.
Qed.

Lemma visit_mul_or_sdiv_by_wide_constant_undefined_witness :
  getInst mul_by_2_pow_40 1
  = Some (BinaryOperator Mul arg_x (ConstantInt (APInt.mk 64 (2 ^ 40))))
  /\ (APInt.BitWidth (APInt.mk 64 (2 ^ 40)) <> 1)%Z
  /\ (2 ^ 32 <= APInt.VAL (APInt.mk 64 (2 ^ 40)) < 2 ^ 64)%Z
  /\ strengthReduction mul_by_2_pow_40 1 = None
  /\ visit mul_by_2_pow_40 1 [] = None.
Proof.
  assert (Hw : (APInt.BitWidth (APInt.mk 64 (2 ^ 40)) <> 1)%Z)
    by discriminate.
  assert (Hc : (2 ^ 32 <= APInt.VAL (APInt.mk 64 (2 ^ 40)) < 2 ^ 64)%Z).
  { vm_compute. split; [discriminate|reflexivity]. }
  split; [reflexivity|]. split; [exact Hw|]. split; [exact Hc|].
  apply (visit_mul_or_sdiv_by_wide_constant_undefined mul_by_2_pow_40 1 Mul
           arg_x (ConstantInt (APInt.mk 64 (2 ^ 40))) arg_x
           (APInt.mk 64 (2 ^ 40)) []).
  - reflexivity.
  - left. reflexivity.
  - right. split; reflexivity.
  - reflexivity.
  - exact Hw.
  - exact Hc.
Defined.

Lemma replaceAllUsesWith_None (F : Function) (old : ident) (new : Value) :
  replaceAllUsesWith F old new = None <-> new = InstResult old.
Proof.
  unfold replaceAllUsesWith.
  destruct (Value_eq_dec new (InstResult old)) as [E|E]; split;
    try discriminate; try reflexivity; intros H; [exact E|contradiction].
Qed.

(** X18 -- On a binary operator with exactly one integer constant the
    Algebraic Identity Rule is undefined in two cases and no other: the
    first operand is a constant that is no integer, so that the cast yields
    null, or the rule matches and the operand to forward is the instruction
    itself. *)
Theorem algebraicIdentity_undefined_iff (F : Function) (K : ident)
  (opc : BinaryOps) (a b : Value) :
  getInst F K = Some (BinaryOperator opc a b) ->
  checkOperands a b = true ->
  algebraicIdentity F K = None
  <-> ((exists n, a = OtherConstant n)
       \/ exists c,
            identityPair opc c = true
            /\ ((a = ConstantInt c /\ b = InstResult K)
                \/ (a = InstResult K /\ b = ConstantInt c))).
Proof.
  intros HK Hm. rewrite (algebraicIdentity_mixed F K opc a b HK Hm).
  clear HK. unfold checkOperands in Hm.
  destruct a as [ca|n|n|i]; destruct b as [cb|m|m|j];
    try discriminate Hm; clear Hm;
    cbn [isa_Constant dyn_cast_ConstantInt_getValue].
  all: try (split; [intros _; left; now eexists|reflexivity]).
  all: match goal with
       | |- context [identityPair ?o ?c] =>
           destruct (identityPair o c) eqn:E
       end.
  all: try match goal with
       | |- context [replaceAllUsesWith ?G ?k ?v] =>
           pose proof (replaceAllUsesWith_None G k v) as HN;
           destruct (replaceAllUsesWith G k v) as [F1|]
       end.
  all: split.
  all: try discriminate.
  all: try (intros _; right; eexists; split; [exact E|];
            first [left; split; [reflexivity|now apply HN]
                  |right; split; [now apply HN|reflexivity]]).
  all: try reflexivity.
  all: intros [[u Hu]|[c [Hc [[H1 H2]|[H1 H2]]]]]; try discriminate.
  all: try (injection H1 as <-); try (injection H2 as <-); try congruence.
  all: exfalso; assert (HF : Some F1 = None) by (now apply HN); discriminate.
Qed.

Lemma algebraicIdentity_undefined_iff_witness :
  getInst add_undef_zero 1 = Some (BinaryOperator Add undef (i32 0))
  /\ checkOperands undef (i32 0) = true
  /\ (algebraicIdentity add_undef_zero 1 = None
      <-> ((exists n, undef = OtherConstant n)
           \/ exists c,
                identityPair Add c = true
                /\ ((undef = ConstantInt c /\ i32 0 = InstResult 1)
                    \/ (undef = InstResult 1 /\ i32 0 = ConstantInt c)))).
Proof.
  split; [reflexivity|]. split; [reflexivity|].
  apply (algebraicIdentity_undefined_iff add_undef_zero 1 Add undef (i32 0));
    reflexivity.
Defined.

(** * The statements of the specification *)

(** C1 -- Cross-Instruction Cancellation.  On
    [%1 = add i32 5, %x; %2 = sub i32 %1, 5; ret %2] the consumer [%2] is a
    mixed [sub] whose constant equals the constant of [%1], but the rule
    reads the operand of [%2] in the slot where [%1] has its constant, finds
    [%1] there and dereferences the null pointer of the failed cast: no use
    is redirected and nothing is marked.  With both constants in the same
    slot the use of [%2] is redirected to [%x] and [%2] is marked. *)
Theorem cancellation_reads_slot_of_producer :
  multiInstructionOptimization add_then_sub_other_slot 1 [] = None
  /\ runOnBasicBlock add_then_sub_other_slot 0 = Undefined
  /\ multiInstructionOptimization add_then_sub_same_slot 1 []
     = Some ([[ (1, BinaryOperator Add arg_x (i32 5));
                (2, BinaryOperator Sub (InstResult 1) (i32 5));
                (3, ret arg_x) ]], [2]).
Proof. repeat split; vm_compute; reflexivity. Qed.

(** C2 -- Strength Reduction, sign of the correction.  For
    [%1 = mul i32 %x, 7], where 7 = 2^3 - 1 and the remainder is -1, the rule
    inserts [%3 = shl %x, 3] and [%4 = add %3, %x] and redirects the uses of
    [%1] to [%4]: the correction is an [add], as it is for 9 = 2^3 + 1, and
    not a [sub]. *)
Theorem strengthReduction_correction_is_add :
  strengthReduction mul_by_7 1
  = Some ([[ (1, BinaryOperator Mul arg_x (i32 7));
             (3, BinaryOperator Shl arg_x (i32 3));
             (4, BinaryOperator Add (InstResult 3) arg_x);
             (2, ret (InstResult 4)) ]], true)
  /\ strengthReduction mul_by_9 1
     = Some ([[ (1, BinaryOperator Mul arg_x (i32 9));
                (3, BinaryOperator Shl arg_x (i32 3));
                (4, BinaryOperator Add (InstResult 3) arg_x);
                (2, ret (InstResult 4)) ]], true).
Proof. split; vm_compute; reflexivity. Qed.

(** C3 -- Block Rewriter return value.  On [%1 = add i32 %x, %y; ret %1] no
    rule matches: the scan leaves the block as it is and the removal list
    empty, and [runOnBasicBlock] returns [true] all the same. *)
Theorem runOnBasicBlock_true_on_untouched_block :
  scan (scanFuel add_of_arguments 0) add_of_arguments 0
       (front (getBlock add_of_arguments 0)) []
  = Returns (add_of_arguments, [])
  /\ runOnBasicBlock add_of_arguments 0 = Returns (add_of_arguments, true).
Proof. split; vm_compute; reflexivity. Qed.

(** C4 -- Driver coverage.  In a module of two functions, [run] returns as
    soon as the first function reports a transformation: the second function
    is handed back untouched although [runOnFunction] rewrites it when it is
    called on it. *)
Theorem run_stops_after_first_function :
  run [add_of_arguments; add_zero]
  = Returns ([add_of_arguments; add_zero], PA_none)
  /\ runOnFunction add_zero = Returns ([[ (2, ret arg_x) ]], true).
Proof. split; vm_compute; reflexivity. Qed.

(** C5 -- Idempotence.  A first run turns [%1 = mul i32 %x, 8; ret %1] into
    [%3 = shl i32 %x, 3; ret %3]; a second run leaves that block unchanged
    and still returns [true], that is "changed". *)
Theorem second_run_still_reports_change :
  runOnBasicBlock mul_by_8 0 = Returns (mul_by_8_reduced, true)
  /\ runOnBasicBlock mul_by_8_reduced 0 = Returns (mul_by_8_reduced, true).
Proof. split; vm_compute; reflexivity. Qed.

(** C6 -- Strength Reduction rejection.  The constant of
    [%1 = sdiv i32 %x, -2147483648] is not a power of two, and the rule
    rewrites the division into [%3 = ashr i32 %x, 31]: the remainder is
    computed on the bits of the constant and wraps to 0.  For the constants
    0 and -3 the shift [1 << NearestLog] has a count of -1 and of 32 and is
    undefined. *)
Theorem strengthReduction_rewrites_sdiv_by_int_min :
  APInt.getSExtValue (APInt.mk 32 (APInt.clearUnusedBits 32 (-2147483648)))
  = (-2147483648)%Z
  /\ strengthReduction sdiv_by_int_min 1
     = Some ([[ (1, BinaryOperator SDiv arg_x (i32 (-2147483648)));
                (3, BinaryOperator AShr arg_x (i32 31));
                (2, ret (InstResult 3)) ]], true)
  /\ strengthReduction mul_by_0 1 = None
  /\ strengthReduction mul_by_minus_3 1 = None.
Proof. repeat split; vm_compute; reflexivity. Qed.

(** C7 -- Algebraic Identity.  [%1 = add i32 undef, 0] is mixed for the
    classifier and its constant is 0, but the rule takes operand 0 for the
    constant because it is a [Constant], and dereferences the null pointer
    that the cast to [ConstantInt] returns; the uses of [%1] are not
    redirected.  On [%1 = sub i32 0, %x] the rule matches and redirects to
    [%x], whichever slot holds the constant. *)
Theorem algebraicIdentity_null_on_other_constant :
  checkOperands undef (i32 0) = true
  /\ algebraicIdentity add_undef_zero 1 = None
  /\ algebraicIdentity sub_zero_left 1
     = Some ([[ (1, BinaryOperator Sub (i32 0) arg_x); (2, ret arg_x) ]], true).
Proof. repeat split; vm_compute; reflexivity. Qed.

(** C8 -- Operand Classifier.  For a binary instruction with operands [op0]
    and [op1], [checkOperands] answers "mixed" if and only if exactly one of
    the two operands is an integer constant and the other is not; for two
    constants and for two variables it answers "not mixed". *)
Theorem checkOperands_mixed_iff_one_constant :
  forall op0 op1 : Value,
    (checkOperands op0 op1 = true <->
       (isa_ConstantInt op0 = true /\ isa_ConstantInt op1 = false)
       \/ (isa_ConstantInt op0 = false /\ isa_ConstantInt op1 = true))
    /\ checkOperands op0 op1
       = xorb (isa_ConstantInt op0) (isa_ConstantInt op1).
Proof.
  intros op0 op1. unfold checkOperands.
  destruct (isa_ConstantInt op0), (isa_ConstantInt op1); simpl;
    (split; [split; [intros H; try discriminate H; tauto|]|reflexivity]);
    intros [[H1 H2]|[H1 H2]]; try discriminate; reflexivity.
Qed.

(** C9 -- Deferred-erase invariant.  A visit of the forward scan erases no
    instruction and only appends to the removal list.  When the scan of a
    block is over, every instruction of the function is still there, every
    listed instruction too, and no operand refers to a listed instruction:
    its uses were redirected when it was listed.  The erase phase then runs,
    once: if no instruction is listed twice, [runOnBasicBlock] returns the
    scanned function without the listed instructions, and undefined
    behaviour is its only other outcome, on a list with a repetition.  What
    is returned has lost exactly the listed instructions, every other
    instruction is as the scan left it, no operand refers to an erased
    instruction, and a function without dangling operands before the run has
    none after it. *)
Theorem deferred_erase_invariant (F F1 : Function) (bi : nat)
  (toRemove : list ident) :
  scan (scanFuel F bi) F bi (front (getBlock F bi)) []
  = Returns (F1, toRemove) ->
  (forall G K rm G' rm',
      visit G K rm = Some (G', rm') ->
      incl (idents G) (idents G') /\ exists l, rm' = rm ++ l)
  /\ incl (idents F) (idents F1)
  /\ (forall k, In k toRemove -> In k (idents F1) /\ ~ references F1 k)
  /\ (NoDup toRemove ->
      runOnBasicBlock F bi = Returns (without toRemove F1, true))
  /\ (~ NoDup toRemove -> runOnBasicBlock F bi = Undefined)
  /\ (forall k, In k (idents (without toRemove F1))
                <-> In k (idents F1) /\ ~ In k toRemove)
  /\ (forall k, ~ In k toRemove ->
                getInst (without toRemove F1) k = getInst F1 k)
  /\ (forall k, In k toRemove -> ~ references (without toRemove F1) k)
  /\ (closed F -> closed (without toRemove F1)).
Proof.
  intros ES.
  pose proof (scan_inv F bi _ _ _ _ _ _ (scanInv_start F) ES)
    as [Hkept Hlive Hunused Hclosed].
  split; [intros G K rm G' rm'; apply visit_keeps|].
  split; [exact Hkept|]. split.
  { intros k Hk. split; [now apply Hlive|].
    intros Hr. exact (Hunused k Hr Hk). }
  split.
  { intros Hnd. unfold runOnBasicBlock. rewrite ES.
    rewrite (eraseAll_Some toRemove F1 Hnd Hlive). reflexivity. }
  split.
  { intros Hdup. unfold runOnBasicBlock. rewrite ES.
    destruct (eraseAll F1 toRemove) as [F2|] eqn:EE; [|reflexivity].
    exfalso. apply Hdup. eapply eraseAll_NoDup. exact EE. }
  split; [intros k; apply idents_without|].
  split; [intros k; apply getInst_without|].
  split.
  - intros k Hin Hk. apply references_without in Hk.
    exact (Hunused k Hk Hin).
  - intros HF k Hk. apply references_without in Hk.
    apply idents_without. split; [now apply Hclosed|now apply Hunused].
Qed.

Lemma deferred_erase_invariant_witness :
  scan (scanFuel three_rules 0) three_rules 0
       (front (getBlock three_rules 0)) []
  = Returns (three_rules_scanned, [1; 2; 4])
  /\ NoDup [1; 2; 4]
  /\ runOnBasicBlock three_rules 0 = Returns (three_rules_reduced, true)
  /\ incl (idents three_rules) (idents three_rules_scanned)
  /\ (forall k, In k [1; 2; 4] ->
        In k (idents three_rules_scanned)
        /\ ~ references three_rules_scanned k)
  /\ (forall k, In k (idents three_rules_reduced)
                <-> In k (idents three_rules_scanned) /\ ~ In k [1; 2; 4])
  /\ (forall k, ~ In k [1; 2; 4] ->
                getInst three_rules_reduced k = getInst three_rules_scanned k)
  /\ (forall k, In k [1; 2; 4] -> ~ references three_rules_reduced k)
  /\ closed three_rules
  /\ closed three_rules_reduced.
Proof.
  assert (Hnd : NoDup [1; 2; 4]).
  { repeat constructor; simpl; intuition discriminate. }
  assert (Hcl : closed three_rules).
  { intros k Hk. unfold references in Hk. simpl in Hk.
    repeat (destruct Hk as [Hk|Hk];
            [try discriminate; injection Hk as <-; simpl; tauto|]).
    contradiction. }
  destruct (deferred_erase_invariant three_rules three_rules_scanned 0
              [1; 2; 4] eq_refl)
    as [_ [Hkept [Hlisted [Hret [_ [Hids [Hsame [Hgone Hclosed]]]]]]]].
  split; [reflexivity|]. split; [exact Hnd|].
  split; [exact (Hret Hnd)|]. split; [exact Hkept|].
  split; [exact Hlisted|]. split; [exact Hids|]. split; [exact Hsame|].
  split; [exact Hgone|]. split; [exact Hcl|exact (Hclosed Hcl)].
Defined.

(** C10 -- No double erasure.  On
    [%1 = sdiv i32 %x, 3; %2 = mul i32 %1, 3; ret %2] the visit of [%1] marks
    [%2] as its cancelling consumer, and the later visit of [%2] matches
    strength reduction (3 = 2^2 - 1) and marks it again: the removal list is
    [[2; 2]] and the erase phase erases [%2] twice. *)
Theorem consumer_marked_twice :
  scan (scanFuel sdiv_then_mul_by_3 0) sdiv_then_mul_by_3 0
       (front (getBlock sdiv_then_mul_by_3 0)) []
  = Returns ([[ (1, BinaryOperator SDiv arg_x (i32 3));
                (2, BinaryOperator Mul (InstResult 1) (i32 3));
                (4, BinaryOperator Shl (InstResult 1) (i32 2));
                (5, BinaryOperator Add (InstResult 4) (InstResult 1));
                (3, ret arg_x) ]], [2; 2])
  /\ runOnBasicBlock sdiv_then_mul_by_3 0 = Undefined.
Proof. split; vm_compute; reflexivity. Qed.
